(** * pyiron_atomistics: the interactive LAMMPS driver

    A shallow embedding of [pyiron_atomistics/lammps/interactive.py]
    (class [LammpsInteractive] and the helper class [_FixExternal]) and the
    properties of its coordinate transform, command protocol, force
    callback and result store.

    Conventions of the embedding:
    - Python floats are idealised as exact rationals ([Qc], canonical
      rationals with Leibniz equality), so that rounding is left out; the
      force callback is given a second time over IEEE binary64 numbers
      (primitive floats), for the one statement that rounding decides;
    - an [(n, 3)] numpy array is a [list vec3], a [(3, 3)] array a [mat3],
      a flat array a [list Qc];
    - the engine handle ([self._interactive_library]) is a record holding
      the per-atom data the driver reads and writes, and the sequence of
      calls it has received, oldest first;
    - collaborators that live outside this file of the repository
      ([UnitConverter], [UnfoldingPrism], the structure object, float to
      text formatting, the base class [GenericInteractive]) are interfaces
      (type classes) with the methods the driver calls. *)

From Stdlib Require Import QArith Qcanon List String Ascii Lia.
From Stdlib Require Qcabs.
From Stdlib Require Import PrimFloat.
From Stdlib Require Uint63.
From stdpp Require Import gmap strings list fin_maps sorting.

Open Scope Qc_scope.
Open Scope string_scope.

(* ===================================================================== *)
(** * Scalars                                                             *)
(* ===================================================================== *)

(** An integer literal as a scalar. *)
Definition qz (z : Z) : Qc := Q2Qc (inject_Z z).

(** A decimal fraction [n / d] as a scalar. *)
Definition qfrac (n : Z) (d : positive) : Qc := Q2Qc (n # d).

(* ===================================================================== *)
(** * Fixed-size arrays                                                   *)
(* ===================================================================== *)

(** Index of an axis of length 3. *)
Inductive idx : Type := I0 | I1 | I2.

Record vec3 : Type := V3 { vx : Qc; vy : Qc; vz : Qc }.

(** A [(3, 3)] array, stored by rows. *)
Record mat3 : Type := M3 { row0 : vec3; row1 : vec3; row2 : vec3 }.

#[global] Instance idx_eq_dec : EqDecision idx.
Proof. solve_decision. Defined.

#[global] Instance vec3_eq_dec : EqDecision vec3.
Proof. solve_decision. Defined.

#[global] Instance mat3_eq_dec : EqDecision mat3.
Proof. solve_decision. Defined.

Definition vget (v : vec3) (i : idx) : Qc :=
  match i with I0 => vx v | I1 => vy v | I2 => vz v end.

Definition mrow (m : mat3) (i : idx) : vec3 :=
  match i with I0 => row0 m | I1 => row1 m | I2 => row2 m end.

(** [m[i, j]]. *)
Definition mget (m : mat3) (i j : idx) : Qc := vget (mrow m i) j.

Definition mk_vec (f : idx -> Qc) : vec3 := V3 (f I0) (f I1) (f I2).

Definition mk_mat (f : idx -> idx -> Qc) : mat3 :=
  M3 (mk_vec (f I0)) (mk_vec (f I1)) (mk_vec (f I2)).

(** Sum over one axis of length 3. *)
Definition sum3 (f : idx -> Qc) : Qc := f I0 + f I1 + f I2.

Definition vzero : vec3 := V3 0 0 0.
Definition vadd (a b : vec3) : vec3 := mk_vec (fun i => vget a i + vget b i).
Definition vsub (a b : vec3) : vec3 := mk_vec (fun i => vget a i - vget b i).
Definition vscale (c : Qc) (a : vec3) : vec3 := mk_vec (fun i => c * vget a i).

Definition identity : mat3 :=
  M3 (V3 1 0 0) (V3 0 1 0) (V3 0 0 1).

(** [m.T]. *)
Definition transpose (m : mat3) : mat3 := mk_mat (fun i j => mget m j i).

(** [np.matrix.trace(m)]. *)
Definition trace (m : mat3) : Qc := mget m I0 I0 + mget m I1 I1 + mget m I2 I2.

(** [a @ b] for two [(3, 3)] arrays. *)
Definition mat_mul (a b : mat3) : mat3 :=
  mk_mat (fun i k => sum3 (fun j => mget a i j * mget b j k)).

(** One row of [np.matmul(a, m)]: the row vector [v] times [m]. *)
Definition vec_mat (v : vec3) (m : mat3) : vec3 :=
  mk_vec (fun j => sum3 (fun i => vget v i * mget m i j)).

(** [np.matmul(a, m)] for an [(n, 3)] array [a] and a [(3, 3)] array [m]. *)
Definition matmul (a : list vec3) (m : mat3) : list vec3 :=
  map (fun v => vec_mat v m) a.

(** [np.einsum("ij,njk->nik", a, t)]. *)
Definition einsum_ij_njk_nik (a : mat3) (t : list mat3) : list mat3 :=
  map (fun tn => mk_mat (fun i k => sum3 (fun j => mget a i j * mget tn j k))) t.

(** [np.einsum("nij,kj->nik", t, b)]. *)
Definition einsum_nij_kj_nik (t : list mat3) (b : mat3) : list mat3 :=
  map (fun tn => mk_mat (fun i k => sum3 (fun j => mget tn i j * mget b k j))) t.

(* ===================================================================== *)
(** * numpy helpers on variable-size arrays                               *)
(* ===================================================================== *)

(** [a.flatten()] of an [(n, 3)] array, row-major. *)
Definition flatten (a : list vec3) : list Qc :=
  concat (map (fun v => [vx v; vy v; vz v]) a).

(** [np.reshape(a, (n, 3))] of a flat array: numpy raises [ValueError]
    unless the array has exactly [3 * n] entries. *)
Fixpoint reshape_n3 (n : nat) (a : list Qc) : option (list vec3) :=
  match n, a with
  | O, [] => Some []
  | S n', x :: y :: z :: a' =>
      match reshape_n3 n' a' with
      | Some rows => Some (V3 x y z :: rows)
      | None => None
      end
  | _, _ => None
  end.

(** Column-wise sum of an [(n, 3)] array. *)
Definition sum_axis0 (a : list vec3) : vec3 := fold_right vadd vzero a.

(** [np.mean(a, axis=0)] of an [(n, 3)] array: the column-wise sum divided
    by the number of rows. For an empty array numpy yields NaN, which has
    no rational counterpart; the results below are stated for [n > 0]. *)
Definition mean_axis0 (a : list vec3) : vec3 :=
  vscale (/ qz (Z.of_nat (length a))) (sum_axis0 a).

(** Insertion of an (key, position) pair in front of a list sorted by
    key: the pair goes before the first pair whose key is not smaller, so
    that among equal keys the earlier position stays first. *)
Fixpoint argsort_insert (k : Z) (i : nat) (l : list (Z * nat)) : list (Z * nat) :=
  match l with
  | [] => [(k, i)]
  | (k', i') :: l' =>
      if (k <=? k')%Z then (k, i) :: l else (k', i') :: argsort_insert k i l'
  end.

Fixpoint argsort_pairs (l : list (Z * nat)) : list (Z * nat) :=
  match l with
  | [] => []
  | (k, i) :: l' => argsort_insert k i (argsort_pairs l')
  end.

(** [a.argsort()]: the positions of [a] listed by ascending value. Equal
    values are listed by ascending position, which is what numpy returns
    for short arrays; its default sort does not promise an order of equal
    values in general, so the results that depend on that order are stated
    for pairwise distinct values (atom IDs are distinct). *)
Definition argsort (a : list Z) : list nat :=
  (argsort_pairs (zip a (seq 0 (length a)))).*2.

(** [a[ind]] with an index array (numpy fancy indexing): one entry of the
    result per index; numpy raises [IndexError] on an index out of range. *)
Fixpoint take {A : Type} (a : list A) (ind : list nat) : option (list A) :=
  match ind with
  | [] => Some []
  | i :: ind' =>
      match a !! i, take a ind' with
      | Some x, Some r => Some (x :: r)
      | _, _ => None
      end
  end.

(* ===================================================================== *)
(** * Collaborators                                                       *)
(* ===================================================================== *)

(** [pyiron_atomistics.lammps.units.UnitConverter], as constructed from the
    job's unit system ([UnitConverter(units=self.units)]). Its method
    [convert_array_to_pyiron_units(array, label)] is called on [(n, 3)]
    arrays, on [(3, 3)] arrays and on scalars. *)
Class UnitConverter : Type := {
  convert_array_to_pyiron_units : string -> list vec3 -> list vec3;
  convert_matrix_to_pyiron_units : string -> mat3 -> mat3;
  convert_scalar_to_pyiron_units : string -> Qc -> Qc
}.

(** The three constants of [scipy.constants] the stress getter uses. *)
Class Constants : Type := {
  eV : Qc;
  bar : Qc;
  angstrom : Qc
}.

(** Python's float to text conversions, ["%f" % x] and [str(x)]. *)
Class FloatFormat : Type := {
  format_f : Qc -> string;
  str_float : Qc -> string
}.

(** The structure object: per-atom positions and the cell. *)
Record Atoms : Type := {
  positions : list vec3;
  cell : mat3
}.

(** [len(structure)]. *)
Definition len (s : Atoms) : nat := length (positions s).

(** An [UnfoldingPrism] object: the attribute [R] and the results of the
    methods [get_lammps_prism()] (as [(lx, ly, lz, xy, xz, yz)]),
    [is_skewed()] and [unfold_cell(cell)]. *)
Record UnfoldingPrism : Type := {
  R : mat3;
  get_lammps_prism : Qc * Qc * Qc * Qc * Qc * Qc;
  is_skewed : bool;
  unfold_cell : mat3 -> mat3
}.

(** The geometry library: the constructor [UnfoldingPrism(cell)] and the
    method [Atoms.is_skewed(tolerance)]. *)
Class Geometry : Type := {
  new_UnfoldingPrism : mat3 -> UnfoldingPrism;
  Atoms_is_skewed : Atoms -> Qc -> bool
}.

(** ** The engine handle *)

(** A call received by the engine handle. The serial handle takes
    [scatter_atoms(name, type, count, data)] and the multi-core one
    [scatter_atoms(name, data)]; both write [data] to the per-atom
    property [name]. *)
Inductive lib_call : Type :=
| Command (c : string)
| ScatterAtoms (name : string) (data : list Qc)
| Close.

#[global] Instance lib_call_eq_dec : EqDecision lib_call.
Proof. solve_decision. Defined.

Record Lammps : Type := {
  atom_x : list Qc;               (* coordinates, flat, engine slot order *)
  atom_f : list Qc;               (* forces, flat, engine slot order *)
  atom_id : list Z;               (* atom IDs by engine slot *)
  compute_st : list (list Qc);    (* compute "st": one row of 6 per slot *)
  thermo : string -> Qc;          (* thermodynamic scalars by keyword *)
  calls : list lib_call           (* calls received, oldest first *)
}.

Definition log_call (c : lib_call) (l : Lammps) : Lammps :=
  {| atom_x := atom_x l; atom_f := atom_f l; atom_id := atom_id l;
     compute_st := compute_st l; thermo := thermo l;
     calls := calls l ++ [c] |}.

(** [lib.command(text)]: the command is added to the calls the handle
    has received. What a command does to the engine's own data (a remap,
    a run) is the engine's business and is not modelled. *)
Definition command (c : string) (l : Lammps) : Lammps := log_call (Command c) l.

(** [lib.scatter_atoms("x", ...)]: the call is added to the calls the
    handle has received, and the data are kept as the coordinates a gather
    returns next; what the engine does to them later is not modelled. *)
Definition scatter_atoms_x (data : list Qc) (l : Lammps) : Lammps :=
  log_call (ScatterAtoms "x" data)
    {| atom_x := data; atom_f := atom_f l; atom_id := atom_id l;
       compute_st := compute_st l; thermo := thermo l; calls := calls l |}.

(** [lib.gather_atoms(name, 1, 3)] for the names the driver reads. *)
Definition gather_atoms (name : string) (l : Lammps) : list Qc :=
  if decide (name = "x") then atom_x l
  else if decide (name = "f") then atom_f l
  else [].

(** [lib.get_thermo(name)]. *)
Definition get_thermo (name : string) (l : Lammps) : Qc := thermo l name.

(** [lib.close()]. *)
Definition close (l : Lammps) : Lammps := log_call Close l.

(* ===================================================================== *)
(** * The job object                                                      *)
(* ===================================================================== *)

(** A value returned by an output function. *)
Inductive pyvalue : Type :=
| PyFloat (x : Qc)
| PyArray (a : list vec3)
| PyMatrix (m : mat3)
| PyTensors (t : list mat3).

#[global] Instance pyvalue_eq_dec : EqDecision pyvalue.
Proof. solve_decision. Defined.

(** The bound methods stored in [interactive_output_functions]. *)
Inductive output_function : Type :=
| positions_getter
| cells_getter
| volume_getter
| forces_getter
| energy_pot_getter
| energy_tot_getter
| steps_getter
| temperatures_getter
| stress_getter
| pressures_getter.

#[global] Instance output_function_eq_dec : EqDecision output_function.
Proof. solve_decision. Defined.

Record LammpsInteractive : Type := {
  _prism : UnfoldingPrism;
  structure : Atoms;
  _structure_current : Atoms;
  _structure_previous : Atoms;
  run_mode_interactive : bool;                (* self.server.run_mode.interactive *)
  cores : nat;                                (* self.server.cores *)
  _interactive_library : Lammps;
  interactive_cache : gmap string (list pyvalue);
  (* a dict in insertion order *)
  interactive_output_functions : list (string * output_function);
  (* the groups below project_hdf5 "output": group -> node -> stored series *)
  output : gmap string (gmap string (list pyvalue));
  warnings : list string                      (* messages of warnings.warn *)
}.

Definition set_prism (p : UnfoldingPrism) (j : LammpsInteractive) : LammpsInteractive :=
  {| _prism := p; structure := structure j;
     _structure_current := _structure_current j;
     _structure_previous := _structure_previous j;
     run_mode_interactive := run_mode_interactive j; cores := cores j;
     _interactive_library := _interactive_library j;
     interactive_cache := interactive_cache j;
     interactive_output_functions := interactive_output_functions j;
     output := output j; warnings := warnings j |}.

Definition set_library (l : Lammps) (j : LammpsInteractive) : LammpsInteractive :=
  {| _prism := _prism j; structure := structure j;
     _structure_current := _structure_current j;
     _structure_previous := _structure_previous j;
     run_mode_interactive := run_mode_interactive j; cores := cores j;
     _interactive_library := l;
     interactive_cache := interactive_cache j;
     interactive_output_functions := interactive_output_functions j;
     output := output j; warnings := warnings j |}.

Definition set_cache (c : gmap string (list pyvalue)) (j : LammpsInteractive)
  : LammpsInteractive :=
  {| _prism := _prism j; structure := structure j;
     _structure_current := _structure_current j;
     _structure_previous := _structure_previous j;
     run_mode_interactive := run_mode_interactive j; cores := cores j;
     _interactive_library := _interactive_library j;
     interactive_cache := c;
     interactive_output_functions := interactive_output_functions j;
     output := output j; warnings := warnings j |}.

Definition set_output_functions (f : list (string * output_function))
  (j : LammpsInteractive) : LammpsInteractive :=
  {| _prism := _prism j; structure := structure j;
     _structure_current := _structure_current j;
     _structure_previous := _structure_previous j;
     run_mode_interactive := run_mode_interactive j; cores := cores j;
     _interactive_library := _interactive_library j;
     interactive_cache := interactive_cache j;
     interactive_output_functions := f;
     output := output j; warnings := warnings j |}.

Definition set_output (o : gmap string (gmap string (list pyvalue)))
  (j : LammpsInteractive) : LammpsInteractive :=
  {| _prism := _prism j; structure := structure j;
     _structure_current := _structure_current j;
     _structure_previous := _structure_previous j;
     run_mode_interactive := run_mode_interactive j; cores := cores j;
     _interactive_library := _interactive_library j;
     interactive_cache := interactive_cache j;
     interactive_output_functions := interactive_output_functions j;
     output := o; warnings := warnings j |}.

(** [warnings.warn(msg)]. *)
Definition warn (msg : string) (j : LammpsInteractive) : LammpsInteractive :=
  {| _prism := _prism j; structure := structure j;
     _structure_current := _structure_current j;
     _structure_previous := _structure_previous j;
     run_mode_interactive := run_mode_interactive j; cores := cores j;
     _interactive_library := _interactive_library j;
     interactive_cache := interactive_cache j;
     interactive_output_functions := interactive_output_functions j;
     output := output j; warnings := warnings j ++ [msg] |}.

(** The parts of the base classes the driver calls through [super()] or
    inherits: [interactive_is_activated()] and
    [GenericInteractive.interactive_close()]. *)
Class GenericInteractive : Type := {
  interactive_is_activated : LammpsInteractive -> bool;
  super_interactive_close : LammpsInteractive -> LammpsInteractive
}.

(** [self._interactive_lib_command(command)]: log at debug level (not
    modelled) and hand the text to the engine. *)
Definition _interactive_lib_command (c : string) (j : LammpsInteractive)
  : LammpsInteractive :=
  set_library (command c (_interactive_library j)) j.

(** The test [np.matrix.trace(self._prism.R) != 3.0] that guards every
    rotation in the driver. *)
Definition trace_is_not_3 (m : mat3) : bool :=
  negb (bool_decide (trace m = qz 3)).

(** [rotation_matrix = self._prism.R.T]: the rotation under the name the
    driver gives it (in the pressure getter), the transpose of the
    prism's attribute [R]. *)
Definition rotation_matrix (j : LammpsInteractive) : mat3 :=
  transpose (R (_prism j)).

(** ** Positions and forces *)

Definition interactive_positions_getter `{UnitConverter} (j : LammpsInteractive)
  : option (list vec3) :=
  match reshape_n3 (len (structure j)) (gather_atoms "x" (_interactive_library j)) with
  | None => None
  | Some positions =>
      let positions :=
        if trace_is_not_3 (R (_prism j))
        then matmul positions (transpose (R (_prism j)))
        else positions in
      Some (convert_array_to_pyiron_units "positions" positions)
  end.

Definition interactive_positions_setter (positions : list vec3) (j : LammpsInteractive)
  : LammpsInteractive :=
  let positions :=
    if trace_is_not_3 (R (_prism j))
    then matmul positions (R (_prism j))
    else positions in
  let positions := flatten positions in
  (* both branches on (run_mode.interactive and cores == 1) scatter the
     same data; they differ in the calling convention of the handle *)
  let j := set_library (scatter_atoms_x positions (_interactive_library j)) j in
  _interactive_lib_command "change_box all remap" j.

Definition interactive_forces_getter `{UnitConverter} (j : LammpsInteractive)
  : option (list vec3) :=
  match reshape_n3 (len (structure j)) (gather_atoms "f" (_interactive_library j)) with
  | None => None
  | Some ff =>
      let ff :=
        if trace_is_not_3 (R (_prism j))
        then matmul ff (transpose (R (_prism j)))
        else ff in
      Some (convert_array_to_pyiron_units "forces" ff)
  end.

(** ** The cell *)

(** The text of the three box-dimension commands of the cell setter. The
    source writes the first two as one string literal continued over two
    lines, so the indentation of the second line (17 and 16 blanks) is
    part of the command. *)
Definition change_box_triclinic_dims `{FloatFormat} (lx ly lz xy xz yz : Qc) : string :=
  "change_box all x final 0 " ++ format_f lx ++ " y final 0 " ++ format_f ly
  ++ " z final 0 " ++ format_f lz ++ "                  xy final " ++ format_f xy
  ++ " xz final " ++ format_f xz ++ " yz final " ++ format_f yz
  ++ " remap units box".

Definition change_box_zero_tilt_dims `{FloatFormat} (lx ly lz : Qc) : string :=
  "change_box all x final 0 " ++ format_f lx ++ " y final 0 " ++ format_f ly
  ++ " z final 0 " ++ format_f lz ++ "                 xy final " ++ format_f 0
  ++ " xz final " ++ format_f 0 ++ " yz final " ++ format_f 0
  ++ " remap units box".

Definition change_box_ortho_dims `{FloatFormat} (lx ly lz : Qc) : string :=
  "change_box all x final 0 " ++ format_f lx ++ " y final 0 " ++ format_f ly
  ++ " z final 0 " ++ format_f lz ++ " remap units box".

Definition upper_triangular_warning : string :=
  "Warning: setting upper trangular matrix might slow down the calculation".

(** The tolerance [1.0e-8] passed to [Atoms.is_skewed]. *)
Definition skew_tolerance : Qc := qfrac 1 100000000.

Definition interactive_cells_setter `{Geometry} `{FloatFormat}
  (cell : mat3) (j : LammpsInteractive) : LammpsInteractive :=
  let j := set_prism (new_UnfoldingPrism cell) j in
  let '(lx, ly, lz, xy, xz, yz) := get_lammps_prism (_prism j) in
  let j :=
    if trace_is_not_3 (R (_prism j)) then warn upper_triangular_warning j else j in
  let is_skewed := Atoms_is_skewed (_structure_current j) skew_tolerance in
  let was_skewed := Atoms_is_skewed (_structure_previous j) skew_tolerance in
  if is_skewed then
    let j :=
      if negb was_skewed
      then _interactive_lib_command "change_box all triclinic" j
      else j in
    _interactive_lib_command (change_box_triclinic_dims lx ly lz xy xz yz) j
  else if was_skewed then
    let j := _interactive_lib_command (change_box_zero_tilt_dims lx ly lz) j in
    _interactive_lib_command "change_box all ortho" j
  else
    _interactive_lib_command (change_box_ortho_dims lx ly lz) j.

(** The geometry part of [interactive_structure_setter]: from the command
    "atom_modify map array" to the creation of the simulation region. The
    commands before it (clear, units, dimension, boundary, atom_style) and
    after it (create_box, masses, create_atoms, potential) depend on the
    job's input tables and are left out. *)
Definition interactive_structure_setter_region `{Geometry} `{FloatFormat}
  (structure : Atoms) (j : LammpsInteractive) : LammpsInteractive :=
  let j := _interactive_lib_command "atom_modify map array" j in
  let j := set_prism (new_UnfoldingPrism (cell structure)) j in
  let j :=
    if trace_is_not_3 (R (_prism j)) then warn upper_triangular_warning j else j in
  let '(xhi, yhi, zhi, xy, xz, yz) := get_lammps_prism (_prism j) in
  if is_skewed (_prism j) then
    _interactive_lib_command
      ("region 1 prism" ++ " 0.0 " ++ str_float xhi ++ " 0.0 " ++ str_float yhi
       ++ " 0.0 " ++ str_float zhi ++ " " ++ str_float xy ++ " " ++ str_float xz
       ++ " " ++ str_float yz ++ " units box") j
  else
    _interactive_lib_command
      ("region 1 block" ++ " 0.0 " ++ str_float xhi ++ " 0.0 " ++ str_float yhi
       ++ " 0.0 " ++ str_float zhi ++ " units box") j.

(** The coordinates [interactive_structure_setter] hands to
    [create_atoms]: [structure.positions], rotated when the trace test
    fires, flattened. *)
Definition interactive_structure_setter_positions
  (structure : Atoms) (j : LammpsInteractive) : list Qc :=
  let positions := positions structure in
  let positions :=
    if trace_is_not_3 (R (_prism j))
    then matmul positions (R (_prism j))
    else positions in
  flatten positions.

Definition interactive_cells_getter `{UnitConverter} (j : LammpsInteractive) : mat3 :=
  let lib := _interactive_library j in
  let cc :=
    M3 (V3 (get_thermo "lx" lib) 0 0)
       (V3 (get_thermo "xy" lib) (get_thermo "ly" lib) 0)
       (V3 (get_thermo "xz" lib) (get_thermo "yz" lib) (get_thermo "lz" lib)) in
  convert_matrix_to_pyiron_units "cells" (unfold_cell (_prism j) cc).

(** ** Scalars *)

Definition interactive_volume_getter `{UnitConverter} (j : LammpsInteractive) : Qc :=
  convert_scalar_to_pyiron_units "volume" (get_thermo "vol" (_interactive_library j)).

Definition interactive_energy_pot_getter `{UnitConverter} (j : LammpsInteractive) : Qc :=
  convert_scalar_to_pyiron_units "energy_pot" (get_thermo "pe" (_interactive_library j)).

Definition interactive_energy_tot_getter `{UnitConverter} (j : LammpsInteractive) : Qc :=
  convert_scalar_to_pyiron_units "energy_tot" (get_thermo "etotal" (_interactive_library j)).

Definition interactive_steps_getter `{UnitConverter} (j : LammpsInteractive) : Qc :=
  convert_scalar_to_pyiron_units "steps" (get_thermo "step" (_interactive_library j)).

Definition interactive_temperatures_getter `{UnitConverter} (j : LammpsInteractive) : Qc :=
  convert_scalar_to_pyiron_units "temperature" (get_thermo "temp" (_interactive_library j)).

(** ** Stress and pressure *)

(** [ind = np.array([0, 3, 4, 3, 1, 5, 4, 5, 2])]. *)
Definition ind : list nat := [0; 3; 4; 3; 1; 5; 4; 5; 2]%nat.

(** [row.reshape(3, 3)] of a row of 9. *)
Definition reshape_33 (row : list Qc) : option mat3 :=
  match row with
  | [a; b; c; d; e; f; g; h; i] => Some (M3 (V3 a b c) (V3 d e f) (V3 g h i))
  | _ => None
  end.

Definition mat_map (f : Qc -> Qc) (m : mat3) : mat3 :=
  mk_mat (fun i k => f (mget m i k)).

(** [[id_lst[i] for i in range(n)]] on the engine's ID array. *)
Definition extract_atom_id (n : nat) (l : Lammps) : option (list Z) :=
  mapM (fun i => atom_id l !! i) (seq 0 n).

(** [np.array([ss[i][j] for i in range(n) for j in range(6)]).reshape(-1, 6)]
    on the engine's per-atom compute: [n] rows of six. *)
Definition extract_compute_st (n : nat) (l : Lammps) : option (list (list Qc)) :=
  mapM (fun i => mapM (fun k => compute_st l !! i ≫= (fun row => row !! k)) (seq 0 6))
       (seq 0 n).

(** The unit factor of the stress getter,
    [/ constants.eV * constants.bar * constants.angstrom**3]. *)
Definition stress_unit `{Constants} (s : Qc) : Qc :=
  s / eV * bar * (angstrom * angstrom * angstrom).

(** The first part of the value of [interactive_stress_getter]: the
    tensors as read from the engine, re-sorted, reshaped and multiplied by
    the unit factor, before any rotation. *)
Definition stress_engine_frame `{Constants} (j : LammpsInteractive) : option (list mat3) :=
  let n := len (structure j) in
  id_lst ← extract_atom_id n (_interactive_library j);
  let id_lst := map (fun i => (i - 1)%Z) id_lst in
  id_lst ← take (seq 0 (length id_lst)) (argsort id_lst);
  ss ← extract_compute_st n (_interactive_library j);
  ss ← take ss id_lst;
  ss ← mapM (fun row => take row ind ≫= reshape_33) ss;
  Some (map (mat_map stress_unit) ss).

(** The value of [interactive_stress_getter] once the compute is set up. *)
Definition stress_value `{Constants} (j : LammpsInteractive) : option (list mat3) :=
  ss ← stress_engine_frame j;
  let ss :=
    if trace_is_not_3 (R (_prism j))
    then
      let ss := einsum_ij_njk_nik (R (_prism j)) ss in
      einsum_nij_kj_nik ss (R (_prism j))
    else ss in
  Some ss.

Definition interactive_stress_getter `{Constants} (j : LammpsInteractive)
  : LammpsInteractive * option (list mat3) :=
  let j :=
    if bool_decide ("stress" ∈ dom (interactive_cache j)) then j
    else
      let j := _interactive_lib_command "compute st all stress/atom NULL" j in
      let j := _interactive_lib_command "run 0" j in
      set_cache (<["stress" := []]> (interactive_cache j)) j in
  (j, stress_value j).

(** The array [pp] that [interactive_pressures_getter] builds from the
    engine's thermodynamic output. *)
Definition pressure_engine_frame (j : LammpsInteractive) : mat3 :=
  let lib := _interactive_library j in
  M3 (V3 (get_thermo "pxx" lib) (get_thermo "pxy" lib) (get_thermo "pxz" lib))
     (V3 (get_thermo "pxy" lib) (get_thermo "pyy" lib) (get_thermo "pyz" lib))
     (V3 (get_thermo "pxz" lib) (get_thermo "pyz" lib) (get_thermo "pzz" lib)).

Definition interactive_pressures_getter `{UnitConverter} (j : LammpsInteractive) : mat3 :=
  let pp := pressure_engine_frame j in
  let rotation_matrix := transpose (R (_prism j)) in
  let pp :=
    if trace_is_not_3 rotation_matrix
    then mat_mul (mat_mul (transpose rotation_matrix) pp) rotation_matrix
    else pp in
  convert_matrix_to_pyiron_units "pressure" pp.

(** ** Construction, collection and closing *)

(** [del d[k]] on a dict kept as a list of entries. *)
Definition dict_del {V : Type} (k : string) (d : list (string * V)) : list (string * V) :=
  filter (fun kv => kv.1 ≠ k) d.

(** [LammpsInteractive.__init__], applied to the object as the base-class
    constructors leave it. The private attributes it initialises
    ([_check_opened], [_interactive_run_command], ...) are not part of
    the record. *)
Definition LammpsInteractive_init (j : LammpsInteractive) : LammpsInteractive :=
  if bool_decide ("stress" ∈ (interactive_output_functions j).*1)
  then set_output_functions (dict_del "stress" (interactive_output_functions j)) j
  else j.

(** Calling a bound output function. A getter that raises yields [None]. *)
Definition call_output_function `{UnitConverter} `{Constants}
  (f : output_function) (j : LammpsInteractive) : LammpsInteractive * option pyvalue :=
  match f with
  | positions_getter => (j, PyArray <$> interactive_positions_getter j)
  | cells_getter => (j, Some (PyMatrix (interactive_cells_getter j)))
  | volume_getter => (j, Some (PyFloat (interactive_volume_getter j)))
  | forces_getter => (j, PyArray <$> interactive_forces_getter j)
  | energy_pot_getter => (j, Some (PyFloat (interactive_energy_pot_getter j)))
  | energy_tot_getter => (j, Some (PyFloat (interactive_energy_tot_getter j)))
  | steps_getter => (j, Some (PyFloat (interactive_steps_getter j)))
  | temperatures_getter => (j, Some (PyFloat (interactive_temperatures_getter j)))
  | stress_getter =>
      let '(j', v) := interactive_stress_getter j in (j', PyTensors <$> v)
  | pressures_getter => (j, Some (PyMatrix (interactive_pressures_getter j)))
  end.

(** [self.interactive_cache[key].append(value)]. *)
Definition cache_append (key : string) (v : pyvalue) (j : LammpsInteractive)
  : LammpsInteractive :=
  set_cache
    (<[key := (default [] (interactive_cache j !! key) ++ [v])%list]>
       (interactive_cache j)) j.

(** The values of the output functions registered under [key], in the
    order of registration. *)
Definition values_under `{UnitConverter} `{Constants} (key : string)
  (fs : list (string * output_function)) (j : LammpsInteractive) : list pyvalue :=
  omap (fun kf => if decide (kf.1 = key) then (call_output_function kf.2 j).2 else None)
    fs.

Fixpoint collect_loop `{UnitConverter} `{Constants}
  (fs : list (string * output_function)) (j : LammpsInteractive)
  : option LammpsInteractive :=
  match fs with
  | [] => Some j
  | (key, f) :: fs' =>
      match call_output_function f j with
      | (j', Some v) => collect_loop fs' (cache_append key v j')
      | (_, None) => None
      end
  end.

(** Modelled from the spec: [interactive_collect] (the spec's collect())
    is defined in the base class [GenericInteractive], which is not among
    the sources. Following the spec, it "pulls every requested observable
    [...] through the transform and unit converter" and "populates the
    result cache": every entry of [interactive_output_functions] is
    called, in order, and its value appended to the cache under the
    entry's key. *)
Definition interactive_collect `{UnitConverter} `{Constants} (j : LammpsInteractive)
  : option LammpsInteractive :=
  collect_loop (interactive_output_functions j) j.

(** [group.list_nodes()]. *)
Definition list_nodes (g : gmap string (list pyvalue)) : list string :=
  (map_to_list g).*1.

(** [h5[group + "/" + key]]. *)
Definition h5_get (group key : string) (o : gmap string (gmap string (list pyvalue)))
  : option (list pyvalue) :=
  o !! group ≫= (fun g => g !! key).

(** [h5[group + "/" + key] = v]; the group is created when missing. *)
Definition h5_set (group key : string) (v : list pyvalue)
  (o : gmap string (gmap string (list pyvalue)))
  : gmap string (gmap string (list pyvalue)) :=
  <[group := <[key := v]> (default ∅ (o !! group))]> o.

(** The loop [for key in keys: h5["generic/" + key] = h5["interactive/" + key]]. *)
Definition copy_interactive_to_generic (keys : list string)
  (o : gmap string (gmap string (list pyvalue)))
  : gmap string (gmap string (list pyvalue)) :=
  foldl (fun o key =>
           match h5_get "interactive" key o with
           | Some v => h5_set "generic" key v o
           | None => o
           end) o keys.

Definition interactive_close `{GenericInteractive} (j : LammpsInteractive)
  : LammpsInteractive :=
  if interactive_is_activated j then
    let j := set_library (close (_interactive_library j)) j in
    let j := super_interactive_close j in
    let h5 := output j in
    match h5 !! "interactive" with
    | Some interactive => set_output (copy_interactive_to_generic (list_nodes interactive) h5) j
    | None => j
    end
  else j.

(* ===================================================================== *)
(** * The force callback                                                  *)
(* ===================================================================== *)

(** Broadcasting of the right-hand side of [fext[tags] += forces] to [n]
    rows: an array of [n] rows is taken as it is, a single row is
    repeated, anything else raises. *)
Definition broadcast_rows {A : Type} (n : nat) (forces : list A) : option (list A) :=
  if (length forces =? n)%nat then Some forces
  else match forces with
       | [v] => Some (replicate n v)
       | _ => None
       end.

(** [buf[tags] = rows]: row [i] of [rows] is written to slot [tags[i]]. *)
Definition assign_rows {A : Type} (buf : list A) (tags : list nat) (rows : list A)
  : list A :=
  foldl (fun b tr => <[tr.1 := tr.2]> b) buf (zip tags rows).

(** [_FixExternal.fix_external(ptr, ntimestep, nlocal, tag, x, fext)] for
    a helper built around [function]. The buffer [fext] is updated in
    place; the result is its content on return, [None] when the call
    raises. *)
Definition fix_external (function : list vec3 -> Z -> nat -> list vec3)
  (ntimestep : Z) (nlocal : nat) (tag : list Z) (x fext : list vec3)
  : option (list vec3) :=
  let tags := argsort tag in
  let fext := map (fun _ => vzero) fext in          (* fext.fill(0) *)
  xs ← take x tags;
  old ← take fext tags;
  forces ← broadcast_rows (length tags) (function xs ntimestep nlocal);
  let fext := assign_rows fext tags (zip_with vadd old forces) in
  let m := mean_axis0 fext in
  Some (map (fun v => vsub v m) fext).

(** ** The force callback on float64 buffers

    The buffers the engine hands to the callback are float64 arrays. The
    definitions below repeat [fix_external] with rows of IEEE binary64
    numbers and numpy's order of operations. *)

(** A row of an [(n, 3)] float64 array. *)
Definition row64 : Type := float * float * float.

Definition row64_zero : row64 := (0, 0, 0)%float.

Definition row64_add (a b : row64) : row64 :=
  let '(a0, a1, a2) := a in
  let '(b0, b1, b2) := b in
  (a0 + b0, a1 + b1, a2 + b2)%float.

Definition row64_sub (a b : row64) : row64 :=
  let '(a0, a1, a2) := a in
  let '(b0, b1, b2) := b in
  (a0 - b0, a1 - b1, a2 - b2)%float.

Definition row64_div (a : row64) (d : float) : row64 :=
  let '(a0, a1, a2) := a in (a0 / d, a1 / d, a2 / d)%float.

(** [np.mean(a, axis=0)] of an [(n, 3)] float64 array: numpy adds the rows
    one after the other, from the first to the last, and divides every
    column sum by the number of rows (for no row at all: [0 / 0], NaN). *)
Definition mean_axis0_float64 (a : list row64) : row64 :=
  let total :=
    match a with
    | [] => row64_zero
    | r :: a' => foldl row64_add r a'
    end in
  row64_div total (PrimFloat.of_uint63 (Uint63.of_Z (Z.of_nat (length a)))).

(** [_FixExternal.fix_external] on float64 buffers. *)
Definition fix_external_float64 (function : list row64 -> Z -> nat -> list row64)
  (ntimestep : Z) (nlocal : nat) (tag : list Z) (x fext : list row64)
  : option (list row64) :=
  let tags := argsort tag in
  let fext := map (fun _ => row64_zero) fext in     (* fext.fill(0) *)
  xs ← take x tags;
  old ← take fext tags;
  forces ← broadcast_rows (length tags) (function xs ntimestep nlocal);
  let fext := assign_rows fext tags (zip_with row64_add old forces) in
  let m := mean_axis0_float64 fext in
  Some (map (fun v => row64_sub v m) fext).

(* ===================================================================== *)
(** * Concrete collaborators for evaluation                               *)
(* ===================================================================== *)

(** A unit system whose conversion multiplies every value carrying the
    label by [factor label]. *)
Definition scaling_units (factor : string -> Qc) : UnitConverter :=
  {| convert_array_to_pyiron_units label a := map (vscale (factor label)) a;
     convert_matrix_to_pyiron_units label m := mat_map (Qcmult (factor label)) m;
     convert_scalar_to_pyiron_units label s := factor label * s |}.

(** Engine units that coincide with the caller's: every factor is 1. *)
Definition same_units : UnitConverter := scaling_units (fun _ => 1).


(** CODATA 2018 values, as in current [scipy.constants]. *)
Definition codata : Constants :=
  {| eV := qfrac 1602176634 (10 ^ 28);
     bar := qz 100000;
     angstrom := qfrac 1 (10 ^ 10) |}.

Definition digit_ascii (z : Z) : ascii := ascii_of_nat (48 + Z.to_nat z).

(** The [k] last decimal digits of [z], in front of [acc]. *)
Fixpoint last_digits (k : nat) (z : Z) (acc : string) : string :=
  match k with
  | O => acc
  | S k' => last_digits k' (z / 10) (String (digit_ascii (z mod 10)) acc)
  end.

Fixpoint all_digits (fuel : nat) (z : Z) (acc : string) : string :=
  match fuel with
  | O => acc
  | S fuel' =>
      let acc := String (digit_ascii (z mod 10)) acc in
      if (z <? 10)%Z then acc else all_digits fuel' (z / 10) acc
  end.

(** Decimal numeral of a natural number. *)
Definition decimal (z : Z) : string := all_digits (S (Z.to_nat (Z.log2 z))) z "".

(** [n / d] rounded to the nearest integer, halves to even ([0 <= n], [0 < d]). *)
Definition round_half_even (n d : Z) : Z :=
  let q := (n / d)%Z in
  let r2 := (2 * (n mod d))%Z in
  if (r2 <? d)%Z then q
  else if (d <? r2)%Z then (q + 1)%Z
  else if Z.even q then q else (q + 1)%Z.

(** ["%f" % x]: sign, integer part, six decimals. *)
Definition format_f_decimal (x : Qc) : string :=
  let n := Qnum x in
  let s := round_half_even (Z.abs n * 10 ^ 6) (Zpos (Qden x)) in
  (if (n <? 0)%Z then "-" else "") ++ decimal (s / 10 ^ 6) ++ "."
  ++ last_digits 6 (s mod 10 ^ 6) "".

(** The least [k] in [1 .. 1 + fuel] with [10^k * n / d] an integer, if any. *)
Fixpoint decimal_places (fuel : nat) (k : nat) (n d : Z) : option nat :=
  if ((n * 10 ^ Z.of_nat k) mod d =? 0)%Z then Some k
  else match fuel with
       | O => None
       | S fuel' => decimal_places fuel' (S k) n d
       end.

(** [str(x)] for a scalar with a decimal expansion of at most 16 places
    (Python prints such a float in positional notation with all its
    decimals and at least one; other values are cut to 16 places here). *)
Definition str_float_decimal (x : Qc) : string :=
  let n := Z.abs (Qnum x) in
  let d := Zpos (Qden x) in
  let k := default 16%nat (decimal_places 15 1 n d) in
  let s := (n * 10 ^ Z.of_nat k / d)%Z in
  (if (Qnum x <? 0)%Z then "-" else "") ++ decimal (s / 10 ^ Z.of_nat k) ++ "."
  ++ last_digits k (s mod 10 ^ Z.of_nat k) "".

Definition decimal_format : FloatFormat :=
  {| format_f := format_f_decimal; str_float := str_float_decimal |}.

(** A geometry library that answers with one fixed prism and one fixed
    skew verdict, for evaluating the driver on a given cell. *)
Definition fixed_geometry (p : UnfoldingPrism) (skewed : Atoms -> bool) : Geometry :=
  {| new_UnfoldingPrism _ := p; Atoms_is_skewed s _ := skewed s |}.

(** A base class whose session is active and whose own [interactive_close]
    leaves the job as it is. *)
Definition active_base : GenericInteractive :=
  {| interactive_is_activated _ := true; super_interactive_close j := j |}.

(** A base class whose session is not active. *)
Definition inactive_base : GenericInteractive :=
  {| interactive_is_activated _ := false; super_interactive_close j := j |}.

(** An engine with no atoms and no calls received. *)
Definition empty_engine : Lammps :=
  {| atom_x := []; atom_f := []; atom_id := []; compute_st := [];
     thermo := fun _ => 0; calls := [] |}.

(** Rotation by a quarter turn about the z axis. *)
Definition quarter_turn : mat3 :=
  M3 (V3 0 (qz (-1)) 0) (V3 1 0 0) (V3 0 0 1).

(** The unit cube turned by a quarter turn: its lattice vectors are
    pairwise orthogonal but not along the axes. *)
Definition turned_cube : mat3 :=
  M3 (V3 0 1 0) (V3 (qz (-1)) 0 0) (V3 0 0 1).

(** The prism of [turned_cube]: [turned_cube @ R] is the unit prism. *)
Definition turned_cube_prism : UnfoldingPrism :=
  {| R := quarter_turn;
     get_lammps_prism := (1, 1, 1, 0, 0, 0);
     is_skewed := false;
     unfold_cell := fun c => mat_mul c (transpose quarter_turn) |}.

(** A prism with the identity rotation and box lengths 1. *)
Definition unit_prism : UnfoldingPrism :=
  {| R := identity;
     get_lammps_prism := (1, 1, 1, 0, 0, 0);
     is_skewed := false;
     unfold_cell := fun c => c |}.

Definition make_job (p : UnfoldingPrism) (s : Atoms) (lib : Lammps)
  : LammpsInteractive :=
  {| _prism := p; structure := s; _structure_current := s;
     _structure_previous := s; run_mode_interactive := true; cores := 1;
     _interactive_library := lib; interactive_cache := ∅;
     interactive_output_functions := []; output := ∅; warnings := [] |}.

(** ** Kinds of engine calls *)

(** A mode-transition command: "change_box all triclinic" or
    "change_box all ortho". *)
Definition is_mode_transition (c : lib_call) : bool :=
  match c with
  | Command s =>
      String.eqb s "change_box all triclinic" || String.eqb s "change_box all ortho"
  | _ => false
  end.

(** [s.startswith(p)]. *)
Fixpoint starts_with (p s : string) : bool :=
  match p with
  | EmptyString => true
  | String a p' =>
      match s with
      | EmptyString => false
      | String b s' => Ascii.eqb a b && starts_with p' s'
      end
  end.

(** A box-dimension command: one that sets the final box bounds. *)
Definition is_box_dimension (c : lib_call) : bool :=
  match c with
  | Command s => starts_with "change_box all x final 0 " s
  | _ => false
  end.

Definition count_mode_transitions (cs : list lib_call) : nat :=
  length (List.filter is_mode_transition cs).

(** The calls a job's engine received after those of an earlier state
    ([None] if the earlier calls are not an initial segment). *)
Fixpoint calls_since (before after : list lib_call) : option (list lib_call) :=
  match before, after with
  | [], _ => Some after
  | b :: before', a :: after' =>
      if decide (a = b) then calls_since before' after' else None
  | _ :: _, [] => None
  end.

(* ===================================================================== *)
(** * Sending the potential to the engine                                 *)
(* ===================================================================== *)

(** [needle in hay] for two strings. *)
Fixpoint contains (needle hay : string) : bool :=
  starts_with needle hay
  || match hay with
     | EmptyString => false
     | String _ hay' => contains needle hay'
     end.

(** [s.replace(old, new)] for a non-empty [old]: every occurrence of
    [old], found from left to right without overlap, is replaced. While
    [skip] is positive the characters of an occurrence already replaced
    are passed over. *)
Fixpoint replace_from (old new : string) (skip : nat) (s : string) : string :=
  match s with
  | EmptyString => EmptyString
  | String c s' =>
      match skip with
      | S skip' => replace_from old new skip' s'
      | O =>
          if starts_with old s
          then new ++ replace_from old new (String.length old - 1) s'
          else String c (replace_from old new 0 s')
      end
  end.

Definition replace (old new s : string) : string := replace_from old new 0 s.

(** [s.split("\n")[0]]: the text before the first line feed. *)
Fixpoint first_line (s : string) : string :=
  match s with
  | EmptyString => EmptyString
  | String c s' =>
      if Ascii.eqb c "010"%char then EmptyString else String c (first_line s')
  end.

(** [s.split("/")[-1]]: the text after the last slash. *)
Fixpoint basename (s : string) : string :=
  match s with
  | EmptyString => EmptyString
  | String c s' =>
      if contains "/" s then basename s' else s
  end.

(** The outcome of a method that may raise [ValueError(message, argument)]. *)
Inductive outcome (A : Type) : Type :=
| Returned (a : A)
| ValueError (message argument : string).

Arguments Returned {A} a.
Arguments ValueError {A} message argument.

(** The first loop of [_interactive_set_potential]: every potential file
    must exist on disk ([os.path.exists], here [path_exists]); the result
    is the list of [[file name, full path]] pairs. *)
Fixpoint potential_pairs (path_exists : string -> bool) (files : list string)
  : outcome (list (string * string)) :=
  match files with
  | [] => Returned []
  | potential :: files' =>
      if path_exists potential then
        match potential_pairs path_exists files' with
        | Returned potential_lst => Returned ((basename potential, potential) :: potential_lst)
        | ValueError message argument => ValueError message argument
        end
      else ValueError "Potential not found: " potential
  end.

(** The inner loop over [potential_lst]: file names in the line are
    replaced by full paths. *)
Definition substitute_paths (potential_lst : list (string * string)) (line : string)
  : string :=
  foldl (fun line potential =>
           if contains (" " ++ potential.1) line
           then replace (" " ++ potential.1) (" " ++ potential.2) line
           else line) line potential_lst.

(** The body of the loop over the potential's lines. *)
Definition send_potential_line (style_full : bool)
  (potential_lst : list (string * string)) (j : LammpsInteractive) (line : string)
  : LammpsInteractive :=
  let line := substitute_paths potential_lst line in
  let j :=
    if negb (style_full && (contains "kspace" line || contains "pair" line))
    then _interactive_lib_command (first_line line) j
    else j in
  if (length potential_lst =? 0)%nat
  then _interactive_lib_command (first_line line) j
  else j.

(** The helper [_interactive_water_setter], which needs the neighbour
    search of the structure library. *)
Class WaterSetter : Type := {
  _interactive_water_setter : LammpsInteractive -> LammpsInteractive
}.

(** [_interactive_set_potential]. The arguments stand for
    [self.input.potential.files], [self.input.control["atom_style"]],
    [self.input.potential.get_string_lst()] and
    [self._interactive_water_bonds]. *)
Definition _interactive_set_potential `{WaterSetter}
  (path_exists : string -> bool) (files : option (list string))
  (atom_style : string) (string_lst : list string) (water_bonds : bool)
  (j : LammpsInteractive) : outcome LammpsInteractive :=
  match potential_pairs path_exists (default [] files) with
  | ValueError message argument => ValueError message argument
  | Returned potential_lst =>
      let style_full := bool_decide (atom_style = "full") in
      let j := foldl (send_potential_line style_full potential_lst) j string_lst in
      if style_full && water_bonds
      then Returned (_interactive_water_setter j)
      else Returned j
  end.

(** A water setter that does nothing, for evaluation. *)
Definition no_water_setter : WaterSetter :=
  {| _interactive_water_setter j := j |}.

(* ===================================================================== *)
(** * Atom types                                                          *)
(* ===================================================================== *)

(** [list(l).index(s)]: the first position of [s], if any. *)
Fixpoint index_of (s : string) (l : list string) : option nat :=
  match l with
  | [] => None
  | x :: l' => if decide (x = s) then Some 0%nat else S <$> index_of s l'
  end.

Section ElementTypes.
Context {El : Type} `{EqDecision El}.

(** [d[k]] on a dict kept as the list of its assignments, latest first. *)
Fixpoint dict_get (k : El) (d : list (El * nat)) : option nat :=
  match d with
  | [] => None
  | (k', v) :: d' => if decide (k' = k) then Some v else dict_get k d'
  end.

(** The loop that fills [el_dict], from position [id_eam] of the
    potential's element list on: an element of the potential that occurs
    among the structure's species symbols gives the species object at the
    same position the type [id_eam + 1]. [None] stands for the
    [IndexError] of [el_obj_lst[id_el]]. *)
Fixpoint build_el_dict (id_eam : nat) (el_eam_lst el_struct_lst : list string)
  (el_obj_lst : list El) (el_dict : list (El * nat)) : option (list (El * nat)) :=
  match el_eam_lst with
  | [] => Some el_dict
  | el_eam :: rest =>
      if bool_decide (el_eam ∈ el_struct_lst) then
        match index_of el_eam el_struct_lst ≫= (fun id_el => el_obj_lst !! id_el) with
        | Some el =>
            build_el_dict (S id_eam) rest el_struct_lst el_obj_lst
              ((el, (id_eam + 1)%nat) :: el_dict)
        | None => None
        end
      else build_el_dict (S id_eam) rest el_struct_lst el_obj_lst el_dict
  end.

(** The array [elem_all] of [interactive_indices_setter]: the type of
    every atom, from its species index. The arguments stand for
    [get_species_symbols()], [get_species_objects()] and [species] of the
    current structure and for [self.input.potential.get_element_lst()].
    [None] stands for the [KeyError] or [IndexError] of a lookup. *)
Definition indices_setter_types (el_struct_lst : list string) (el_obj_lst species : list El)
  (el_eam_lst : list string) (indices : list nat) : option (list nat) :=
  el_dict ← build_el_dict 0 el_eam_lst el_struct_lst el_obj_lst [];
  mapM (fun el => species !! el ≫= (fun e => dict_get e el_dict)) indices.

(** [interactive_indices_setter]: the types are scattered to the engine
    as the per-atom property "type" (an integer array, logged here as
    scalars). *)
Definition interactive_indices_setter (el_struct_lst : list string)
  (el_obj_lst species : list El) (el_eam_lst : list string) (indices : list nat)
  (j : LammpsInteractive) : option LammpsInteractive :=
  elem_all ← indices_setter_types el_struct_lst el_obj_lst species el_eam_lst indices;
  Some (set_library
          (log_call (ScatterAtoms "type" (map (fun t => qz (Z.of_nat t)) elem_all))
             (_interactive_library j)) j).

End ElementTypes.

(** One atom at [(1, 0, 0)] in the turned cube. *)
Definition one_atom : Atoms :=
  {| positions := [V3 1 0 0]; cell := turned_cube |}.

(** A job on the turned cube whose engine has received nothing yet. *)
Definition turned_job : LammpsInteractive :=
  make_job turned_cube_prism one_atom empty_engine.

(** An engine holding one atom at [(1, 0, 0)] with force [(0, 2, 0)], whose
    only non-zero pressure component is [pxz = 1]. *)
Definition shear_engine : Lammps :=
  {| atom_x := [1; 0; 0]; atom_f := [0; qz 2; 0]; atom_id := [1%Z];
     compute_st := [[0; 0; 0; 0; 1; 0]];
     thermo := fun name => if decide (name = "pxz") then 1 else 0;
     calls := [] |}.

Definition shear_job : LammpsInteractive :=
  make_job turned_cube_prism one_atom shear_engine.

Definition dot (a b : vec3) : Qc := sum3 (fun i => vget a i * vget b i).

(** A skew verdict for evaluation: the lattice vectors are not pairwise
    orthogonal (the cell's volume differs from the product of its edge
    lengths). *)
Definition rows_not_orthogonal (s : Atoms) : bool :=
  negb (bool_decide (dot (row0 (cell s)) (row1 (cell s)) = 0
                     /\ dot (row0 (cell s)) (row2 (cell s)) = 0
                     /\ dot (row1 (cell s)) (row2 (cell s)) = 0)).

(** A cell already in the engine's form, with a tilt of one half. *)
Definition sheared_cell : mat3 :=
  M3 (V3 1 0 0) (V3 (qfrac 1 2) 1 0) (V3 0 0 1).

(** The prism of [sheared_cell]: no rotation is needed. *)
Definition sheared_prism : UnfoldingPrism :=
  {| R := identity;
     get_lammps_prism := (1, 1, 1, qfrac 1 2, 0, 0);
     is_skewed := true;
     unfold_cell := fun c => c |}.

(** A job whose structure has just been sheared: the previous structure
    is the unit cube, the current one has [sheared_cell]. *)
Definition sheared_job : LammpsInteractive :=
  {| _prism := unit_prism;
     structure := {| positions := [V3 0 0 0]; cell := sheared_cell |};
     _structure_current := {| positions := [V3 0 0 0]; cell := sheared_cell |};
     _structure_previous := {| positions := [V3 0 0 0]; cell := identity |};
     run_mode_interactive := true; cores := 1;
     _interactive_library := empty_engine; interactive_cache := ∅;
     interactive_output_functions := []; output := ∅; warnings := [] |}.

(** A job whose stored structures, current and previous, both have the
    unit cube as their cell. *)
Definition cubic_job : LammpsInteractive :=
  make_job unit_prism {| positions := [V3 0 0 0]; cell := identity |} empty_engine.

(** An output store with two interactive nodes, one of which is already
    present under "generic" with another value, and one generic node of
    its own. *)
Definition sample_output : gmap string (gmap string (list pyvalue)) :=
  {[ "interactive" := {[ "energy_pot" := [PyFloat (qz 1)]; "steps" := [PyFloat (qz 2)] ]};
     "generic" := {[ "steps" := [PyFloat 0]; "volume" := [PyFloat (qz 3)] ]} ]}.

Definition sample_job : LammpsInteractive :=
  set_output sample_output turned_job.

(** The observables the spec lists for collect(), bound to their getters
    as a base class would register them. *)
Definition listed_output_functions : list (string * output_function) :=
  [("positions", positions_getter); ("forces", forces_getter);
   ("energy_pot", energy_pot_getter); ("energy_tot", energy_tot_getter);
   ("temperature", temperatures_getter); ("pressures", pressures_getter);
   ("stress", stress_getter); ("steps", steps_getter)].

(** The shear job as the base-class constructors would leave it. *)
Definition base_job : LammpsInteractive :=
  set_output_functions listed_output_functions shear_job.

(** ** Reading the stress report *)

(** The symmetric tensor that a six-component report
    [(xx, yy, zz, xy, xz, yz)] stands for. *)
Definition voigt_tensor (row : list Qc) : option mat3 :=
  match row with
  | [xx; yy; zz; xy; xz; yz] =>
      Some (M3 (V3 xx xy xz) (V3 xy yy yz) (V3 xz yz zz))
  | _ => None
  end.

(** Two atoms held by the engine in the order ID 2, ID 1, with the
    reports [(1, ..., 6)] for ID 2 and [(7, ..., 12)] for ID 1. *)
Definition swapped_engine : Lammps :=
  {| atom_x := [0; 0; 0; 1; 0; 0]; atom_f := [0; 0; 0; 0; 0; 0];
     atom_id := [2%Z; 1%Z];
     compute_st := [[qz 1; qz 2; qz 3; qz 4; qz 5; qz 6];
                    [qz 7; qz 8; qz 9; qz 10; qz 11; qz 12]];
     thermo := fun _ => 0; calls := [] |}.

Definition two_atoms : Atoms :=
  {| positions := [V3 1 0 0; V3 0 0 0]; cell := turned_cube |}.

Definition swapped_job : LammpsInteractive :=
  make_job turned_cube_prism two_atoms swapped_engine.

(** Constants all equal to 1, so that the stress unit factor is 1. *)
Definition unit_constants : Constants := {| eV := 1; bar := 1; angstrom := 1 |}.

(** ** Force callbacks for evaluation *)

(** A user function returning the same non-zero force for every atom. *)
Definition constant_force (xs : list vec3) (ntimestep : Z) (nlocal : nat) : list vec3 :=
  map (fun _ => V3 1 (qz 2) (qz 3)) xs.

(** A user function returning each atom's coordinates as its force. *)
Definition position_force (xs : list vec3) (ntimestep : Z) (nlocal : nat) : list vec3 :=
  xs.

(** The float64 number nearest to [0.1]. *)
Definition tenth : float := 0x1.999999999999ap-4%float.

(** A user function returning the force [(0.1, 0.1, 0.1)] for every
    atom. *)
Definition constant_force_float64 (xs : list row64) (ntimestep : Z) (nlocal : nat)
  : list row64 :=
  map (fun _ => (tenth, tenth, tenth)) xs.

(** The atom IDs in ascending order: the keys of the sorted (ID, slot)
    pairs. *)
Definition sorted_ids (tag : list Z) : list Z :=
  (argsort_pairs (zip tag (seq 0 (length tag)))).*1.

(** A [(3, 3)] array equal to its transpose. *)
Definition symmetric (m : mat3) : Prop := transpose m = m.

(** ** Agreement within a tolerance *)

(** [|a - b| <= eps]. *)
Definition within (eps a b : Qc) : Prop := Qcabs.Qcabs (a - b) <= eps.

#[global] Instance within_dec (eps a b : Qc) : Decision (within eps a b).
Proof. unfold within. apply _. Defined.


Definition mwithin (eps : Qc) (a b : mat3) : Prop :=
  forall i k : idx, within eps (mget a i k) (mget b i k).


Definition mbounded (bound : Qc) (t : mat3) : Prop :=
  forall i k : idx, Qcabs.Qcabs (mget t i k) <= bound.

(** A quarter turn that is a rotation only up to rounding: the cosine of
    the right angle is [6.123e-17] instead of [0], as a float64
    calculation leaves it, so that [R @ R.T] differs from the identity by
    about [3.7e-33] on the diagonal. *)
Definition rounded_quarter_turn : mat3 :=
  M3 (V3 (qfrac 6123 (10 ^ 20)) (qz (-1)) 0)
     (V3 1 (qfrac 6123 (10 ^ 20)) 0)
     (V3 0 0 1).

Definition rounded_prism : UnfoldingPrism :=
  {| R := rounded_quarter_turn;
     get_lammps_prism := (1, 1, 1, 0, 0, 0);
     is_skewed := false;
     unfold_cell := fun c => mat_mul c (transpose rounded_quarter_turn) |}.

(** The two atoms of [swapped_job] on the prism with the rounded
    rotation. *)
Definition rounded_job : LammpsInteractive :=
  make_job rounded_prism two_atoms swapped_engine.

(* ===================================================================== *)
(** * Linear algebra facts                                                *)
(* ===================================================================== *)

Ltac unfold_linalg :=
  unfold mat_mul, vec_mat, transpose, mat_map, trace, vadd, vsub, vscale,
    mk_mat, mk_vec, sum3, mget, vget, mrow, identity, vzero in *;
  cbn [row0 row1 row2 vx vy vz] in *.

(** Closes an equation between vectors or matrices whose components are
    equal as polynomials. *)
Ltac linalg :=
  unfold_linalg;
  lazymatch goal with
  | |- M3 _ _ _ = M3 _ _ _ => f_equal; (f_equal; ring)
  | |- V3 _ _ _ = V3 _ _ _ => f_equal; ring
  | |- _ => ring
  end.

(** Decides a closed proposition by evaluation. *)
Ltac by_evaluation :=
  first
    [ apply (bool_decide_unpack _); vm_compute; exact I
    | apply (bool_decide_eq_false_1 _); vm_compute; reflexivity ].

Lemma trace_is_not_3_true (m : mat3) : trace_is_not_3 m = true <-> trace m <> qz 3.
Proof.
  unfold trace_is_not_3. rewrite negb_true_iff, bool_decide_eq_false. reflexivity.
Qed.

Lemma trace_is_not_3_false (m : mat3) : trace_is_not_3 m = false <-> trace m = qz 3.
Proof.
  unfold trace_is_not_3. rewrite negb_false_iff, bool_decide_eq_true. reflexivity.
Qed.

Lemma trace_transpose (m : mat3) : trace (transpose m) = trace m.
Proof. unfold_linalg. reflexivity. Qed.

Lemma transpose_involutive (m : mat3) : transpose (transpose m) = m.
Proof. destruct m as [[? ? ?] [? ? ?] [? ? ?]]. reflexivity. Qed.

(** Component [k] of [v @ m] is the sum over [i] of [v[i] * m[i, k]]. *)
Lemma vec_mat_component (v : vec3) (m : mat3) (k : idx) :
  vget (vec_mat v m) k
  = vget v I0 * mget m I0 k + vget v I1 * mget m I1 k + vget v I2 * mget m I2 k.
Proof. destruct k; reflexivity. Qed.

(** Component [k] of [v @ m.T] is the sum over [i] of [v[i] * m[k, i]]. *)
Lemma vec_mat_transpose_component (v : vec3) (m : mat3) (k : idx) :
  vget (vec_mat v (transpose m)) k
  = vget v I0 * mget m k I0 + vget v I1 * mget m k I1 + vget v I2 * mget m k I2.
Proof. destruct k; reflexivity. Qed.

Lemma vec_mat_assoc (v : vec3) (a b : mat3) :
  vec_mat (vec_mat v a) b = vec_mat v (mat_mul a b).
Proof. linalg. Qed.

Lemma vec_mat_identity (v : vec3) : vec_mat v identity = v.
Proof. destruct v. linalg. Qed.

Lemma matmul_assoc (a : list vec3) (m1 m2 : mat3) :
  matmul (matmul a m1) m2 = matmul a (mat_mul m1 m2).
Proof.
  unfold matmul. rewrite map_map. apply map_ext. intros v. apply vec_mat_assoc.
Qed.

Lemma matmul_identity (a : list vec3) : matmul a identity = a.
Proof.
  unfold matmul. induction a as [|v a IH]; [reflexivity|].
  cbn [map]. rewrite vec_mat_identity, IH. reflexivity.
Qed.


(** The two [einsum] calls of the stress getter amount to [r @ t @ r.T]
    on every tensor. *)
Lemma einsum_rotation (r : mat3) (t : list mat3) :
  einsum_nij_kj_nik (einsum_ij_njk_nik r t) r
  = map (fun tn => mat_mul (mat_mul r tn) (transpose r)) t.
Proof.
  unfold einsum_nij_kj_nik, einsum_ij_njk_nik. rewrite map_map.
  apply map_ext. intros tn. linalg.
Qed.

(* ===================================================================== *)
(** * numpy helper facts                                                  *)
(* ===================================================================== *)


Lemma reshape_n3_length (n : nat) (a : list Qc) (rows : list vec3) :
  reshape_n3 n a = Some rows -> length rows = n.
Proof.
  revert a rows. induction n as [|n IH]; intros a rows.
  - destruct a; [|discriminate]. intros [= <-]. reflexivity.
  - destruct a as [|x [|y [|z a]]]; try discriminate. cbn [reshape_n3].
    destruct (reshape_n3 n a) as [r|] eqn:E; [|discriminate].
    intros [= <-]. cbn [length]. f_equal. eapply IH. exact E.
Qed.

(* ===================================================================== *)
(** * Record bookkeeping                                                  *)
(* ===================================================================== *)

Lemma set_output_same (j : LammpsInteractive) : set_output (output j) j = j.
Proof. destruct j. reflexivity. Qed.

Lemma lib_command_calls (c : string) (j : LammpsInteractive) :
  calls (_interactive_library (_interactive_lib_command c j))
  = (calls (_interactive_library j) ++ [Command c])%list.
Proof. reflexivity. Qed.

(* ===================================================================== *)
(** * Vectors: positions and forces (C1, C6, C10)                         *)
(* ===================================================================== *)

Lemma gather_atoms_x (l : Lammps) : gather_atoms "x" l = atom_x l.
Proof. reflexivity. Qed.

Lemma gather_atoms_f (l : Lammps) : gather_atoms "f" l = atom_f l.
Proof. reflexivity. Qed.

Lemma positions_setter_library (positions : list vec3) (j : LammpsInteractive) :
  _interactive_library (interactive_positions_setter positions j)
  = command "change_box all remap"
      (scatter_atoms_x
         (flatten (if trace_is_not_3 (R (_prism j))
                   then matmul positions (R (_prism j)) else positions))
         (_interactive_library j)).
Proof. reflexivity. Qed.

Lemma positions_setter_keeps (positions : list vec3) (j : LammpsInteractive) :
  _prism (interactive_positions_setter positions j) = _prism j
  /\ structure (interactive_positions_setter positions j) = structure j.
Proof. split; reflexivity. Qed.

(** C1. Write [R] for the driver's [rotation_matrix], which is
    [self._prism.R.T]. For a cell on which the trace test fires,
    [interactive_positions_setter] scatters the rows [v @ R.T] (the
    forward mapping), and [interactive_positions_getter] and
    [interactive_forces_getter] return the unit conversion of the
    gathered rows [v' @ R] (the inverse mapping). *)
Theorem C1_vector_mapping `{UnitConverter} (j : LammpsInteractive) :
  trace (rotation_matrix j) <> qz 3 ->
  (forall new_positions : list vec3,
      calls (_interactive_library (interactive_positions_setter new_positions j))
      = (calls (_interactive_library j)
         ++ [ScatterAtoms "x"
               (flatten (matmul new_positions (transpose (rotation_matrix j))));
             Command "change_box all remap"])%list)
  /\ (forall raw : list vec3,
         reshape_n3 (len (structure j)) (atom_x (_interactive_library j)) = Some raw ->
         interactive_positions_getter j
         = Some (convert_array_to_pyiron_units "positions"
                   (matmul raw (rotation_matrix j))))
  /\ (forall raw : list vec3,
         reshape_n3 (len (structure j)) (atom_f (_interactive_library j)) = Some raw ->
         interactive_forces_getter j
         = Some (convert_array_to_pyiron_units "forces"
                   (matmul raw (rotation_matrix j)))).
Proof.
  unfold rotation_matrix. rewrite trace_transpose, transpose_involutive.
  intros Htrace. apply trace_is_not_3_true in Htrace.
  split; [|split].
  - intros new_positions. rewrite positions_setter_library, Htrace.
    unfold command, scatter_atoms_x, log_call. cbn [calls].
    rewrite <- app_assoc. reflexivity.
  - intros raw Hraw. unfold interactive_positions_getter.
    rewrite gather_atoms_x, Hraw, Htrace. reflexivity.
  - intros raw Hraw. unfold interactive_forces_getter.
    rewrite gather_atoms_f, Hraw, Htrace. reflexivity.
Qed.

(** C1 at the turned cube: the atom at [(1, 0, 0)] is scattered as
    [(0, -1, 0)], and engine data [(1, 0, 0)] is returned as [(0, 1, 0)]. *)
Lemma C1_vector_mapping_witness :
  calls (_interactive_library (interactive_positions_setter [V3 1 0 0] turned_job))
  = (calls (_interactive_library turned_job)
     ++ [ScatterAtoms "x"
           (flatten (matmul [V3 1 0 0] (transpose (rotation_matrix turned_job))));
         Command "change_box all remap"])%list
  /\ @interactive_positions_getter same_units shear_job
     = Some (@convert_array_to_pyiron_units same_units "positions"
               (matmul [V3 1 0 0] (rotation_matrix shear_job))).
Proof.
  split.
  - apply (proj1 (@C1_vector_mapping same_units turned_job ltac:(by_evaluation))).
  - apply (proj1 (proj2 (@C1_vector_mapping same_units shear_job ltac:(by_evaluation)))).
    reflexivity.
Defined.

(** The same calls evaluated. *)
Example vector_mapping_sample :
  calls (_interactive_library (interactive_positions_setter [V3 1 0 0] turned_job))
  = [ScatterAtoms "x" [0; qz (-1); 0]; Command "change_box all remap"]
  /\ @interactive_positions_getter same_units shear_job = Some [V3 0 1 0].
Proof. split; by_evaluation. Qed.

(** C10. Every call of [interactive_positions_setter], whether the trace
    test fires or not, makes exactly two calls on the engine handle: the
    scatter of the new coordinates and then the command
    "change_box all remap", which is thereby the last one. *)
Theorem C10_positions_setter_remaps (positions : list vec3) (j : LammpsInteractive) :
  exists data : list Qc,
    data = flatten (if trace_is_not_3 (R (_prism j))
                    then matmul positions (R (_prism j)) else positions)
    /\ calls (_interactive_library (interactive_positions_setter positions j))
       = (calls (_interactive_library j)
          ++ [ScatterAtoms "x" data; Command "change_box all remap"])%list
    /\ last (calls (_interactive_library (interactive_positions_setter positions j)))
       = Some (Command "change_box all remap")
    /\ atom_x (_interactive_library (interactive_positions_setter positions j)) = data.
Proof.
  eexists. split; [reflexivity|].
  rewrite positions_setter_library. unfold command, scatter_atoms_x, log_call.
  cbn [calls atom_x]. rewrite <- app_assoc. cbn [app].
  split; [reflexivity|]. split; [|reflexivity].
  rewrite last_app. reflexivity.
Qed.

(** ** Round trips within a tolerance *)

Lemma abs_product_bound (a b bound eps : Qc) :
  Qcabs.Qcabs a <= bound -> Qcabs.Qcabs b <= eps -> Qcabs.Qcabs (a * b) <= bound * eps.
Proof.
  intros Ha Hb. rewrite Qcabs.Qcabs_Qcmult.
  apply Qcle_trans with (Qcabs.Qcabs a * eps).
  - apply Qcmult_le_mono_nonneg_l; [apply Qcabs.Qcabs_nonneg|exact Hb].
  - apply Qcmult_le_mono_nonneg_r; [|exact Ha].
    apply Qcle_trans with (Qcabs.Qcabs b); [apply Qcabs.Qcabs_nonneg|exact Hb].
Qed.

Lemma abs_sum3_le (f : idx -> Qc) (c : Qc) :
  (forall i, Qcabs.Qcabs (f i) <= c) -> Qcabs.Qcabs (sum3 f) <= qz 3 * c.
Proof.
  intros Hf. unfold sum3.
  replace (qz 3 * c) with (c + c + c) by (change (qz 3) with (1 + 1 + 1); ring).
  eapply Qcle_trans; [apply Qcabs.Qcabs_triangle|].
  apply Qcplus_le_compat; [|apply Hf].
  eapply Qcle_trans; [apply Qcabs.Qcabs_triangle|].
  apply Qcplus_le_compat; apply Hf.
Qed.

Lemma abs_sum3_bound (a b : idx -> Qc) (bound eps : Qc) :
  (forall i, Qcabs.Qcabs (a i) <= bound) -> (forall i, Qcabs.Qcabs (b i) <= eps) ->
  Qcabs.Qcabs (sum3 (fun i => a i * b i)) <= qz 3 * (bound * eps).
Proof.
  intros Ha Hb. apply abs_sum3_le. intros i. apply abs_product_bound; auto.
Qed.

Lemma within_nonneg (eps a b : Qc) : within eps a b -> 0 <= eps.
Proof. intros Hw. eapply Qcle_trans; [apply Qcabs.Qcabs_nonneg|exact Hw]. Qed.

Lemma within_refl (eps a : Qc) : 0 <= eps -> within eps a a.
Proof.
  intros Heps. unfold within. replace (a - a) with 0 by ring. exact Heps.
Qed.







(* ===================================================================== *)
(** * Tensors: stress and pressure (C2)                                   *)
(* ===================================================================== *)

Lemma stress_getter_value `{Constants} (j : LammpsInteractive) :
  (interactive_stress_getter j).2 = stress_value j.
Proof.
  unfold interactive_stress_getter.
  destruct (bool_decide ("stress" ∈ dom (interactive_cache j))); reflexivity.
Qed.



(** The pressure of the xz shear evaluated: a yz shear. *)
Example tensor_mapping_sample :
  pressure_engine_frame shear_job = M3 (V3 0 0 1) (V3 0 0 0) (V3 1 0 0)
  /\ @interactive_pressures_getter same_units shear_job
     = M3 (V3 0 0 0) (V3 0 0 1) (V3 0 1 0).
Proof. split; by_evaluation. Qed.

(* ===================================================================== *)
(** * The cell setter's command sequence (C3)                             *)
(* ===================================================================== *)

Section CellSetter.
Context `{Geometry} `{FloatFormat}.

Lemma triclinic_dims_kind (lx ly lz xy xz yz : Qc) :
  is_box_dimension (Command (change_box_triclinic_dims lx ly lz xy xz yz)) = true
  /\ is_mode_transition (Command (change_box_triclinic_dims lx ly lz xy xz yz)) = false.
Proof. split; reflexivity. Qed.

Lemma zero_tilt_dims_kind (lx ly lz : Qc) :
  is_box_dimension (Command (change_box_zero_tilt_dims lx ly lz)) = true
  /\ is_mode_transition (Command (change_box_zero_tilt_dims lx ly lz)) = false.
Proof. split; reflexivity. Qed.

Lemma ortho_dims_kind (lx ly lz : Qc) :
  is_box_dimension (Command (change_box_ortho_dims lx ly lz)) = true
  /\ is_mode_transition (Command (change_box_ortho_dims lx ly lz)) = false.
Proof. split; reflexivity. Qed.

(** The calls the cell setter adds, by the two skew verdicts. *)
Lemma cells_setter_calls (cell : mat3) (j : LammpsInteractive) :
  calls (_interactive_library (interactive_cells_setter cell j))
  = (calls (_interactive_library j)
     ++ let '(lx, ly, lz, xy, xz, yz) := get_lammps_prism (new_UnfoldingPrism cell) in
        match Atoms_is_skewed (_structure_current j) skew_tolerance,
              Atoms_is_skewed (_structure_previous j) skew_tolerance with
        | true, false =>
            [Command "change_box all triclinic";
             Command (change_box_triclinic_dims lx ly lz xy xz yz)]
        | true, true => [Command (change_box_triclinic_dims lx ly lz xy xz yz)]
        | false, true =>
            [Command (change_box_zero_tilt_dims lx ly lz);
             Command "change_box all ortho"]
        | false, false => [Command (change_box_ortho_dims lx ly lz)]
        end)%list.
Proof.
  unfold interactive_cells_setter.
  cbn [_prism set_prism].
  destruct (get_lammps_prism (new_UnfoldingPrism cell))
    as [[[[[lx ly] lz] xy] xz] yz].
  destruct (trace_is_not_3 (R (new_UnfoldingPrism cell)));
    cbn [_structure_current _structure_previous warn set_prism];
    destruct (Atoms_is_skewed (_structure_current j) skew_tolerance),
             (Atoms_is_skewed (_structure_previous j) skew_tolerance);
    cbn [negb]; rewrite ?lib_command_calls; cbn [_interactive_library warn set_prism];
    rewrite <- ?app_assoc; reflexivity.
Qed.

End CellSetter.

(** C3. The two skew verdicts the cell setter acts on are
    [is_skewed(tolerance=1.0e-8)] of the stored current structure
    ("skewed now") and of the stored previous structure ("skewed before");
    neither is computed from the cell passed in, which only supplies the
    box lengths and tilt factors. With these verdicts, the calls
    [interactive_cells_setter] adds to the engine are:
    - skewed now, not before: "change_box all triclinic", then the
      box-dimension command with the new tilt factors;
    - skewed now and before: that box-dimension command alone;
    - not skewed now, skewed before: the box-dimension command in which the
      three tilt factors are written as zero, then "change_box all ortho";
    - not skewed now nor before: the box-dimension command without tilt
      factors.
    So there is one mode-transition command when the verdict changed and
    none otherwise, one box-dimension command in every case, and every
    command issued is of exactly one of the two kinds. *)
Theorem C3_cell_setter_commands `{Geometry} `{FloatFormat}
  (cell : mat3) (j : LammpsInteractive) :
  let is_skewed := Atoms_is_skewed (_structure_current j) skew_tolerance in
  let was_skewed := Atoms_is_skewed (_structure_previous j) skew_tolerance in
  let '(lx, ly, lz, xy, xz, yz) := get_lammps_prism (new_UnfoldingPrism cell) in
  exists issued : list lib_call,
    calls (_interactive_library (interactive_cells_setter cell j))
    = (calls (_interactive_library j) ++ issued)%list
    /\ issued
       = match is_skewed, was_skewed with
         | true, false =>
             [Command "change_box all triclinic";
              Command ("change_box all x final 0 " ++ format_f lx ++ " y final 0 "
                      ++ format_f ly ++ " z final 0 " ++ format_f lz
                      ++ "                  xy final " ++ format_f xy
                      ++ " xz final " ++ format_f xz ++ " yz final " ++ format_f yz
                      ++ " remap units box")]
         | true, true =>
             [Command ("change_box all x final 0 " ++ format_f lx ++ " y final 0 "
                      ++ format_f ly ++ " z final 0 " ++ format_f lz
                      ++ "                  xy final " ++ format_f xy
                      ++ " xz final " ++ format_f xz ++ " yz final " ++ format_f yz
                      ++ " remap units box")]
         | false, true =>
             [Command ("change_box all x final 0 " ++ format_f lx ++ " y final 0 "
                      ++ format_f ly ++ " z final 0 " ++ format_f lz
                      ++ "                 xy final " ++ format_f 0
                      ++ " xz final " ++ format_f 0 ++ " yz final " ++ format_f 0
                      ++ " remap units box");
              Command "change_box all ortho"]
         | false, false =>
             [Command ("change_box all x final 0 " ++ format_f lx ++ " y final 0 "
                      ++ format_f ly ++ " z final 0 " ++ format_f lz
                      ++ " remap units box")]
         end
    /\ count_mode_transitions issued = (if xorb is_skewed was_skewed then 1 else 0)%nat
    /\ length (List.filter is_box_dimension issued) = 1%nat
    /\ Forall (fun c => xorb (is_mode_transition c) (is_box_dimension c) = true) issued.
Proof.
  intros is_skewed was_skewed.
  pose proof (cells_setter_calls cell j) as Hcalls.
  fold is_skewed was_skewed in Hcalls.
  destruct (get_lammps_prism (new_UnfoldingPrism cell))
    as [[[[[lx ly] lz] xy] xz] yz].
  eexists. split; [exact Hcalls|]. split; [reflexivity|].
  destruct is_skewed, was_skewed; repeat split; repeat constructor.
Qed.

(** C3 as stated fails. The stored structures of [cubic_job] are cubic;
    the cell passed in has a tilt of one half, so the new cell is skewed
    and the previous one was not. The setter issues the box-dimension
    command without tilt factors and no mode-transition command at all:
    the engine is not switched to triclinic mode and the tilt is not
    sent. *)
Lemma C3_counterexample :
  let geometry := fixed_geometry sheared_prism rows_not_orthogonal in
  let j := @interactive_cells_setter geometry decimal_format sheared_cell cubic_job in
  rows_not_orthogonal {| positions := [V3 0 0 0]; cell := sheared_cell |} = true
  /\ is_skewed (@new_UnfoldingPrism geometry sheared_cell) = true
  /\ get_lammps_prism (_prism j) = (1, 1, 1, qfrac 1 2, 0, 0)
  /\ rows_not_orthogonal {| positions := [V3 0 0 0]; cell := identity |} = false
  /\ calls (_interactive_library j)
     = [Command "change_box all x final 0 1.000000 y final 0 1.000000 z final 0 1.000000 remap units box"]
  /\ count_mode_transitions (calls (_interactive_library j)) = 0%nat.
Proof. cbv zeta. repeat split; by_evaluation. Qed.

(* ===================================================================== *)
(** * What gates rotation and what gates the engine's mode (C7)           *)
(* ===================================================================== *)

Lemma calls_since_app (before issued : list lib_call) :
  calls_since before (before ++ issued) = Some issued.
Proof.
  induction before as [|b before IH]; [reflexivity|].
  cbn [app calls_since]. rewrite decide_True by reflexivity. exact IH.
Qed.

Lemma trace_is_not_3_decide (m : mat3) :
  trace_is_not_3 m = negb (bool_decide (trace m = qz 3)).
Proof. reflexivity. Qed.

Lemma structure_setter_region_calls `{Geometry} `{FloatFormat}
  (s : Atoms) (j : LammpsInteractive) :
  calls (_interactive_library (interactive_structure_setter_region s j))
  = (calls (_interactive_library j)
     ++ [Command "atom_modify map array";
         let '(xhi, yhi, zhi, xy, xz, yz) := get_lammps_prism (new_UnfoldingPrism (cell s)) in
         if is_skewed (new_UnfoldingPrism (cell s))
         then Command ("region 1 prism" ++ " 0.0 " ++ str_float xhi ++ " 0.0 "
                       ++ str_float yhi ++ " 0.0 " ++ str_float zhi ++ " "
                       ++ str_float xy ++ " " ++ str_float xz ++ " " ++ str_float yz
                       ++ " units box")
         else Command ("region 1 block" ++ " 0.0 " ++ str_float xhi ++ " 0.0 "
                       ++ str_float yhi ++ " 0.0 " ++ str_float zhi ++ " units box")])%list.
Proof.
  unfold interactive_structure_setter_region.
  cbn [_prism set_prism].
  destruct (trace_is_not_3 (R (new_UnfoldingPrism (cell s))));
    cbn [_prism warn set_prism];
    destruct (get_lammps_prism (new_UnfoldingPrism (cell s)))
      as [[[[[xhi yhi] zhi] xy] xz] yz];
    destruct (is_skewed (new_UnfoldingPrism (cell s)));
    unfold _interactive_lib_command, command, log_call;
    cbn [calls _interactive_library set_library warn set_prism];
    rewrite <- app_assoc; reflexivity.
Qed.

(** C7, as the code has it. Three different tests are at work.
    - The exact comparison [trace(R) != 3.0] (no tolerance) decides
      whether the rotation is applied: in the positions setter, in the
      positions, forces, stress and pressure getters, and to the
      coordinates the structure setter creates atoms from.
    - The engine mode in the cell setter follows
      [is_skewed(tolerance=1e-8)] of the current and of the previous
      structure: "change_box all triclinic" is issued when only the
      current one is skewed, "change_box all ortho" when only the previous
      one was.
    - The region the structure setter creates is a prism or a block
      according to the prism's own [is_skewed()]. *)
Theorem C7_rotation_and_mode_gates
  `{UnitConverter} `{Constants} `{Geometry} `{FloatFormat}
  (j : LammpsInteractive) (new_positions : list vec3) (cell' : mat3) (s : Atoms) :
  let r := R (_prism j) in
  let rotate := negb (bool_decide (trace r = qz 3)) in
  let is_skewed_now := Atoms_is_skewed (_structure_current j) skew_tolerance in
  let was_skewed := Atoms_is_skewed (_structure_previous j) skew_tolerance in
  atom_x (_interactive_library (interactive_positions_setter new_positions j))
  = flatten (if rotate then matmul new_positions r else new_positions)
  /\ interactive_positions_getter j
     = (fun raw => convert_array_to_pyiron_units "positions"
                     (if rotate then matmul raw (transpose r) else raw))
         <$> reshape_n3 (len (structure j)) (atom_x (_interactive_library j))
  /\ interactive_forces_getter j
     = (fun raw => convert_array_to_pyiron_units "forces"
                     (if rotate then matmul raw (transpose r) else raw))
         <$> reshape_n3 (len (structure j)) (atom_f (_interactive_library j))
  /\ (interactive_stress_getter j).2
     = (fun ss => if rotate
                  then map (fun t' => mat_mul (mat_mul r t') (transpose r)) ss
                  else ss)
         <$> stress_engine_frame j
  /\ interactive_pressures_getter j
     = convert_matrix_to_pyiron_units "pressure"
         (if rotate
          then mat_mul (mat_mul r (pressure_engine_frame j)) (transpose r)
          else pressure_engine_frame j)
  /\ interactive_structure_setter_positions s j
     = flatten (if rotate then matmul (positions s) r else positions s)
  /\ List.filter is_mode_transition
       <$> calls_since (calls (_interactive_library j))
             (calls (_interactive_library (interactive_cells_setter cell' j)))
     = Some (match is_skewed_now, was_skewed with
             | true, false => [Command "change_box all triclinic"]
             | false, true => [Command "change_box all ortho"]
             | _, _ => []
             end)
  /\ calls_since (calls (_interactive_library j))
       (calls (_interactive_library (interactive_structure_setter_region s j)))
     = Some [Command "atom_modify map array";
             let '(xhi, yhi, zhi, xy, xz, yz) :=
               get_lammps_prism (new_UnfoldingPrism (cell s)) in
             if is_skewed (new_UnfoldingPrism (cell s))
             then Command ("region 1 prism" ++ " 0.0 " ++ str_float xhi ++ " 0.0 "
                           ++ str_float yhi ++ " 0.0 " ++ str_float zhi ++ " "
                           ++ str_float xy ++ " " ++ str_float xz ++ " "
                           ++ str_float yz ++ " units box")
             else Command ("region 1 block" ++ " 0.0 " ++ str_float xhi ++ " 0.0 "
                           ++ str_float yhi ++ " 0.0 " ++ str_float zhi
                           ++ " units box")].
Proof.
  intros r rotate is_skewed_now was_skewed.
  assert (Hrot : trace_is_not_3 r = rotate) by reflexivity.
  repeat split.
  - rewrite stress_getter_value. unfold stress_value. fold r. rewrite Hrot.
    destruct (stress_engine_frame j) as [ss|]; [|reflexivity]. cbn.
    destruct rotate; [rewrite einsum_rotation|]; reflexivity.
  - rewrite cells_setter_calls, calls_since_app. fold is_skewed_now was_skewed.
    destruct (get_lammps_prism (new_UnfoldingPrism cell'))
      as [[[[[lx ly] lz] xy] xz] yz].
    destruct is_skewed_now, was_skewed; reflexivity.
  - rewrite structure_setter_region_calls, calls_since_app. reflexivity.
Qed.

(** C7 as stated fails in both directions.
    On the turned cube the trace of [R] is 1, so the rotation is applied
    (the atom at [(1, 0, 0)] is scattered as [(0, -1, 0)]), yet neither
    structure is skewed and the cell setter issues the orthogonal
    box-dimension command alone, and the structure setter creates a block.
    On the sheared cell [R] is the identity, so its trace is 3 and nothing
    is rotated, yet the current structure is skewed and the cell setter
    switches the engine to triclinic mode. *)
Lemma C7_counterexample :
  let turned := fixed_geometry turned_cube_prism rows_not_orthogonal in
  let sheared := fixed_geometry sheared_prism rows_not_orthogonal in
  let j1 := @interactive_cells_setter turned decimal_format turned_cube turned_job in
  let j2 := @interactive_cells_setter sheared decimal_format sheared_cell sheared_job in
  (trace (R (_prism j1)) <> qz 3
   /\ atom_x (_interactive_library (interactive_positions_setter [V3 1 0 0] j1))
      = [0; qz (-1); 0]
   /\ calls (_interactive_library j1)
      = [Command "change_box all x final 0 1.000000 y final 0 1.000000 z final 0 1.000000 remap units box"]
   /\ count_mode_transitions (calls (_interactive_library j1)) = 0%nat
   /\ calls (_interactive_library
               (@interactive_structure_setter_region turned decimal_format
                  one_atom turned_job))
      = [Command "atom_modify map array";
         Command "region 1 block 0.0 1.0 0.0 1.0 0.0 1.0 units box"])
  /\ (trace (R (_prism j2)) = qz 3
      /\ atom_x (_interactive_library (interactive_positions_setter [V3 1 0 0] j2))
         = [1; 0; 0]
      /\ calls (_interactive_library j2)
         = [Command "change_box all triclinic";
            Command "change_box all x final 0 1.000000 y final 0 1.000000 z final 0 1.000000                  xy final 0.500000 xz final 0.000000 yz final 0.000000 remap units box"]).
Proof. cbv zeta. repeat split; by_evaluation. Qed.

(* ===================================================================== *)
(** * Closing the session (C9)                                            *)
(* ===================================================================== *)

Section Store.
Implicit Types (o : gmap string (gmap string (list pyvalue))).
Implicit Types (g : gmap string (list pyvalue)).

Lemma h5_get_set (group key : string) (v : list pyvalue) o (group' key' : string) :
  h5_get group' key' (h5_set group key v o)
  = if decide (group' = group /\ key' = key) then Some v else h5_get group' key' o.
Proof.
  unfold h5_get, h5_set.
  destruct (decide (group' = group)) as [->|Hg].
  - rewrite lookup_insert_eq. cbn.
    destruct (decide (key' = key)) as [->|Hk].
    + rewrite lookup_insert_eq, decide_True by done. reflexivity.
    + rewrite lookup_insert_ne, decide_False by (try intros [_ ?]; congruence).
      destruct (o !! group); reflexivity.
  - rewrite lookup_insert_ne, decide_False by (try intros [? _]; congruence).
    reflexivity.
Qed.

Lemma h5_set_other_group (group key : string) (v : list pyvalue) o (group' : string) :
  group' <> group -> h5_set group key v o !! group' = o !! group'.
Proof. intros Hne. unfold h5_set. rewrite lookup_insert_ne by congruence. reflexivity. Qed.

Lemma list_nodes_elem g (key : string) : key ∈ list_nodes g <-> is_Some (g !! key).
Proof.
  unfold list_nodes. rewrite list_elem_of_fmap. split.
  - intros [[k v] [-> Hin]]. apply elem_of_map_to_list in Hin. eauto.
  - intros [v Hv]. exists (key, v). split; [reflexivity|].
    apply elem_of_map_to_list. exact Hv.
Qed.

(** The copy loop over any list of keys: groups other than "generic" are
    left alone, and under "generic" exactly the listed keys that exist
    under "interactive" are overwritten with the interactive value. *)
Lemma copy_interactive_to_generic_spec (keys : list string) o g :
  o !! "interactive" = Some g ->
  (forall group, group <> "generic" ->
                 copy_interactive_to_generic keys o !! group = o !! group)
  /\ (forall key,
         h5_get "generic" key (copy_interactive_to_generic keys o)
         = if decide (key ∈ keys)
           then match g !! key with
                | Some v => Some v
                | None => h5_get "generic" key o
                end
           else h5_get "generic" key o).
Proof.
  revert o. induction keys as [|k keys IH]; intros o Hg.
  - split; [reflexivity|]. intros key. rewrite decide_False by apply not_elem_of_nil.
    reflexivity.
  - unfold copy_interactive_to_generic in *. cbn [foldl].
    assert (Hget : h5_get "interactive" k o = g !! k).
    { unfold h5_get. rewrite Hg. reflexivity. }
    rewrite Hget. destruct (g !! k) as [v|] eqn:Hk.
    + assert (Hg' : h5_set "generic" k v o !! "interactive" = Some g).
      { rewrite h5_set_other_group by discriminate. exact Hg. }
      destruct (IH _ Hg') as [IH1 IH2]. split.
      * intros group Hne. rewrite IH1 by exact Hne.
        apply h5_set_other_group. exact Hne.
      * intros key. rewrite IH2, h5_get_set.
        destruct (decide (key = k)) as [->|Hne].
        -- rewrite (decide_True (P := k ∈ k :: keys)) by apply list_elem_of_here.
           rewrite Hk, (decide_True (P := _ /\ _)) by done.
           destruct (decide (k ∈ keys)); reflexivity.
        -- rewrite (decide_False (P := _ /\ _)) by (intros [_ ?]; congruence).
           destruct (decide (key ∈ keys)) as [Hin|Hnin].
           ++ rewrite decide_True by (apply list_elem_of_further; exact Hin).
              reflexivity.
           ++ rewrite decide_False; [reflexivity|].
              intros Hin. apply elem_of_cons in Hin as [?|?]; contradiction.
    + destruct (IH _ Hg) as [IH1 IH2]. split; [exact IH1|].
      intros key. rewrite IH2.
      destruct (decide (key = k)) as [->|Hne].
      * rewrite (decide_True (P := k ∈ k :: keys)) by apply list_elem_of_here.
        rewrite Hk. destruct (decide (k ∈ keys)); reflexivity.
      * destruct (decide (key ∈ keys)) as [Hin|Hnin].
        -- rewrite decide_True by (apply list_elem_of_further; exact Hin).
           reflexivity.
        -- rewrite decide_False; [reflexivity|].
           intros Hin. apply elem_of_cons in Hin as [?|?]; contradiction.
Qed.

End Store.

(** C9. When the session is active, [interactive_close] calls [close()] on
    the engine handle, runs the base class's [interactive_close], and then
    changes nothing but the "generic" group of the output store: a key
    that is a node of "interactive" holds the interactive value, every
    other key holds what it held before. When the session is not active
    the job is left as it is. *)
Theorem C9_interactive_close `{GenericInteractive} (j : LammpsInteractive) :
  let closed := set_library (close (_interactive_library j)) j in
  let j1 := super_interactive_close closed in
  let final := interactive_close j in
  if interactive_is_activated j then
    last (calls (_interactive_library closed)) = Some Close
    /\ final = set_output (output final) j1
    /\ (forall group : string,
           group <> "generic" -> output final !! group = output j1 !! group)
    /\ (forall key : string,
           h5_get "generic" key (output final)
           = match h5_get "interactive" key (output j1) with
             | Some v => Some v
             | None => h5_get "generic" key (output j1)
             end)
  else final = j.
Proof.
  intros closed j1 final. unfold final, interactive_close.
  destruct (interactive_is_activated j); [|reflexivity].
  fold closed. fold j1. cbv zeta.
  split.
  { unfold closed, close, log_call. cbn [_interactive_library set_library calls].
    apply last_snoc. }
  destruct (output j1 !! "interactive") as [g|] eqn:Hg.
  - destruct (copy_interactive_to_generic_spec (list_nodes g) (output j1) g Hg)
      as [Hother Hgeneric].
    split; [destruct j1; reflexivity|].
    split; [exact Hother|].
    intros key. cbn [output set_output]. rewrite Hgeneric.
    assert (Hget : h5_get "interactive" key (output j1) = g !! key).
    { unfold h5_get. rewrite Hg. reflexivity. }
    rewrite Hget. destruct (decide (key ∈ list_nodes g)) as [Hin|Hnin].
    + reflexivity.
    + destruct (g !! key) eqn:Hk; [|reflexivity].
      exfalso. apply Hnin, list_nodes_elem. eauto.
  - split; [symmetry; apply set_output_same|].
    split; [reflexivity|].
    intros key. unfold h5_get at 2. rewrite Hg. reflexivity.
Qed.

(** Closing the sample job: "energy_pot" is added to "generic", "steps" is
    overwritten, "volume" stays, and nothing happens without a session. *)
Example interactive_close_sample :
  output (@interactive_close active_base sample_job) !! "generic"
  = Some {[ "energy_pot" := [PyFloat (qz 1)]; "steps" := [PyFloat (qz 2)];
            "volume" := [PyFloat (qz 3)] ]}
  /\ calls (_interactive_library (@interactive_close active_base sample_job)) = [Close]
  /\ @interactive_close inactive_base sample_job = sample_job.
Proof.
  split; [|split; reflexivity].
  vm_compute. reflexivity.
Qed.

(* ===================================================================== *)
(** * Construction and collection (C8)                                    *)
(* ===================================================================== *)

Lemma init_output_functions (j0 : LammpsInteractive) :
  interactive_output_functions (LammpsInteractive_init j0)
  = filter (fun kf => kf.1 ≠ "stress") (interactive_output_functions j0).
Proof.
  unfold LammpsInteractive_init.
  destruct (bool_decide ("stress" ∈ (interactive_output_functions j0).*1)) eqn:Hin.
  - reflexivity.
  - apply bool_decide_eq_false in Hin. symmetry.
    induction (interactive_output_functions j0) as [|kf fs IH]; [reflexivity|].
    rewrite filter_cons_True.
    + f_equal. apply IH. intros Hfs. apply Hin. cbn. right. exact Hfs.
    + intros Hk. apply Hin. cbn. rewrite Hk. left.
Qed.

Section Collect.
Context `{UnitConverter} `{Constants}.

(** Every getter but the stress getter leaves the job as it is, and its
    value does not depend on the cache. *)
Lemma call_output_function_pure (f : output_function) (j : LammpsInteractive)
  (c : gmap string (list pyvalue)) :
  f <> stress_getter ->
  (call_output_function f (set_cache c j)).1 = set_cache c j
  /\ (call_output_function f (set_cache c j)).2 = (call_output_function f j).2.
Proof. intros Hf. destruct f; try (split; reflexivity). contradiction. Qed.

Lemma set_cache_own (j : LammpsInteractive) : set_cache (interactive_cache j) j = j.
Proof. destruct j. reflexivity. Qed.

(** A collection that calls no stress getter: it succeeds exactly when
    every getter does, changes nothing but the cache, and appends to the
    list under every key the values of the getters registered under it. *)
Lemma collect_loop_spec (fs : list (string * output_function)) (j : LammpsInteractive) :
  Forall (fun kf => kf.2 <> stress_getter) fs ->
  forall c : gmap string (list pyvalue),
  (is_Some (collect_loop fs (set_cache c j))
   <-> Forall (fun kf => is_Some (call_output_function kf.2 j).2) fs)
  /\ forall j' : LammpsInteractive,
      collect_loop fs (set_cache c j) = Some j' ->
      exists c' : gmap string (list pyvalue),
        j' = set_cache c' j
        /\ (forall key : string,
               default [] (c' !! key)
               = (default [] (c !! key) ++ values_under key fs j)%list)
        /\ (forall key : string, key ∉ fs.*1 -> c' !! key = c !! key).
Proof.
  induction fs as [|[key0 f] fs IH]; intros Hfs c.
  - split; [split; [constructor|intros _; eexists; reflexivity]|].
    intros j' [= <-]. exists c. split; [reflexivity|].
    split; [intros key; cbn; rewrite app_nil_r; reflexivity|reflexivity].
  - apply Forall_cons in Hfs as [Hf Hfs]. cbn [snd] in Hf.
    destruct (call_output_function_pure f j c Hf) as [Hj Hv].
    cbn [collect_loop].
    destruct (call_output_function f (set_cache c j)) as [j1 v] eqn:Hcall.
    cbn [fst snd] in Hj, Hv. subst j1.
    destruct v as [v|].
    + change (cache_append key0 v (set_cache c j))
        with (set_cache (<[key0 := (default [] (c !! key0) ++ [v])%list]> c) j).
      destruct (IH Hfs (<[key0 := (default [] (c !! key0) ++ [v])%list]> c))
        as [Hsome Hres].
      split.
      * rewrite Hsome, Forall_cons. cbn [snd]. rewrite <- Hv.
        split; [intros Hall; split; [eexists; reflexivity|exact Hall]
               |intros [_ Hall]; exact Hall].
      * intros j' Hcollect. destruct (Hres j' Hcollect) as [c' [-> [Hvals Hother]]].
        exists c'. split; [reflexivity|]. split.
        -- intros key. rewrite Hvals. unfold values_under.
           cbn [omap list_omap fst snd].
           rewrite <- Hv. destruct (decide (key0 = key)) as [->|Hne].
           ++ rewrite lookup_insert_eq. cbn. rewrite <- app_assoc. reflexivity.
           ++ rewrite lookup_insert_ne by exact Hne. reflexivity.
        -- intros key Hnin. cbn in Hnin. apply not_elem_of_cons in Hnin as [Hne Hnin].
           rewrite (Hother key Hnin). apply lookup_insert_ne. congruence.
    + split.
      * split; [intros [? Hs]; discriminate Hs|].
        intros Hall. apply Forall_cons in Hall as [[? Hs] _]. cbn [snd] in Hs.
        rewrite <- Hv in Hs. discriminate Hs.
      * intros j' Hcollect. discriminate Hcollect.
Qed.

End Collect.

(** C8. Let the base class register the stress getter under the key
    "stress" only. The constructor removes that entry from
    [interactive_output_functions] and keeps every other entry, in order,
    so that no registered function is the stress getter. collect() then
    - succeeds exactly when every registered getter returns a value;
    - sends nothing to the engine, so that no per-atom stress compute is
      set up;
    - appends to the cached list of every key the values the getters
      registered under that key return (through rotation and unit
      conversion), and nothing else;
    - leaves the cache entry "stress" as it was.
    Stress is not collected: it is only computed when
    [interactive_stress_getter] is called explicitly. *)
Theorem C8_collect_without_stress `{UnitConverter} `{Constants}
  (j0 : LammpsInteractive) :
  (forall key : string,
      (key, stress_getter) ∈ interactive_output_functions j0 -> key = "stress") ->
  let j := LammpsInteractive_init j0 in
  let fs := interactive_output_functions j in
  fs = filter (fun kf => kf.1 ≠ "stress") (interactive_output_functions j0)
  /\ Forall (fun kf => kf.2 <> stress_getter) fs
  /\ (is_Some (interactive_collect j)
      <-> Forall (fun kf => is_Some (call_output_function kf.2 j).2) fs)
  /\ forall j' : LammpsInteractive,
      interactive_collect j = Some j' ->
      _interactive_library j' = _interactive_library j
      /\ (forall key : string,
             default [] (interactive_cache j' !! key)
             = (default [] (interactive_cache j !! key) ++ values_under key fs j)%list)
      /\ interactive_cache j' !! "stress" = interactive_cache j !! "stress".
Proof.
  intros Hbound j fs.
  assert (Hfs : fs = filter (fun kf => kf.1 ≠ "stress") (interactive_output_functions j0))
    by apply init_output_functions.
  assert (Hno : Forall (fun kf => kf.2 <> stress_getter) fs).
  { rewrite Hfs. apply Forall_forall. intros [key f] Hin.
    apply list_elem_of_filter in Hin as [Hne Hin]. cbn [fst snd] in *.
    intros ->. apply Hne, Hbound. exact Hin. }
  assert (Hkeys : "stress" ∉ fs.*1).
  { rewrite Hfs. intros Hin. apply list_elem_of_fmap in Hin as [[key f] [Hk Hin]].
    apply list_elem_of_filter in Hin as [Hne _]. cbn [fst] in *. congruence. }
  destruct (collect_loop_spec fs j Hno (interactive_cache j)) as [Hsome Hres].
  rewrite set_cache_own in Hsome, Hres.
  split; [exact Hfs|]. split; [exact Hno|]. split; [exact Hsome|].
  intros j' Hcollect. destruct (Hres j' Hcollect) as [c' [-> [Hvals Hother]]].
  split; [reflexivity|]. split; [exact Hvals|]. apply Hother. exact Hkeys.
Qed.

(** C8 at the shear job with the observables the spec lists. *)
Lemma C8_collect_without_stress_witness :
  let j := LammpsInteractive_init base_job in
  let fs := interactive_output_functions j in
  fs = filter (fun kf => kf.1 ≠ "stress") (interactive_output_functions base_job)
  /\ Forall (fun kf => kf.2 <> stress_getter) fs
  /\ (is_Some (@interactive_collect same_units codata j)
      <-> Forall (fun kf => is_Some (@call_output_function same_units codata kf.2 j).2)
            fs)
  /\ forall j' : LammpsInteractive,
      @interactive_collect same_units codata j = Some j' ->
      _interactive_library j' = _interactive_library j
      /\ (forall key : string,
             default [] (interactive_cache j' !! key)
             = (default [] (interactive_cache j !! key)
                ++ @values_under same_units codata key fs j)%list)
      /\ interactive_cache j' !! "stress" = interactive_cache j !! "stress".
Proof.
  apply (@C8_collect_without_stress same_units codata base_job).
  intros key Hin. apply list_elem_of_In in Hin. cbn in Hin.
  repeat (destruct Hin as [Hin|Hin]; [congruence|]). destruct Hin.
Defined.

(** C8 as stated fails: the base class registers "stress", the
    constructor removes it, and a collection caches positions (and the
    other six observables) but no stress, and issues no stress compute. *)
Lemma C8_counterexample :
  (("stress", stress_getter) ∈ interactive_output_functions base_job)
  /\ (interactive_output_functions (LammpsInteractive_init base_job)).*1
     = ["positions"; "forces"; "energy_pot"; "energy_tot"; "temperature";
        "pressures"; "steps"]
  /\ (fun j' => interactive_cache j' !! "stress")
       <$> @interactive_collect same_units codata (LammpsInteractive_init base_job)
     = Some None
  /\ (fun j' => interactive_cache j' !! "positions")
       <$> @interactive_collect same_units codata (LammpsInteractive_init base_job)
     = Some (Some [PyArray [V3 0 1 0]])
  /\ (fun j' => calls (_interactive_library j'))
       <$> @interactive_collect same_units codata (LammpsInteractive_init base_job)
     = Some [].
Proof. repeat split; by_evaluation. Qed.

(* ===================================================================== *)
(** * Sorting by atom ID                                                  *)
(* ===================================================================== *)

Lemma argsort_insert_perm (k : Z) (i : nat) (l : list (Z * nat)) :
  argsort_insert k i l ≡ₚ (k, i) :: l.
Proof.
  induction l as [|[k' i'] l IH]; [reflexivity|].
  cbn [argsort_insert]. destruct (k <=? k')%Z; [reflexivity|].
  rewrite IH. apply Permutation_swap.
Qed.

Lemma argsort_pairs_perm (l : list (Z * nat)) : argsort_pairs l ≡ₚ l.
Proof.
  induction l as [|[k i] l IH]; [reflexivity|].
  cbn [argsort_pairs]. rewrite argsort_insert_perm, IH. reflexivity.
Qed.

Lemma argsort_insert_sorted (k : Z) (i : nat) (l : list (Z * nat)) :
  Sorted Z.le l.*1 -> Sorted Z.le (argsort_insert k i l).*1.
Proof.
  induction l as [|[k' i'] l IH]; intros Hsorted.
  - repeat constructor.
  - cbn [argsort_insert]. destruct (Z.leb_spec k k') as [Hlt|Hge].
    + constructor; [exact Hsorted|]. constructor. cbn. lia.
    + apply Sorted_inv in Hsorted as [Hsorted Hhd].
      cbn [fmap list_fmap fst]. constructor; [apply IH; exact Hsorted|].
      destruct l as [|[k'' i''] l]; cbn.
      * constructor. cbn. lia.
      * destruct (k <=? k'')%Z; constructor; cbn.
        -- lia.
        -- apply HdRel_inv in Hhd. exact Hhd.
Qed.

Lemma argsort_pairs_sorted (l : list (Z * nat)) : Sorted Z.le (argsort_pairs l).*1.
Proof.
  induction l as [|[k i] l IH]; [constructor|].
  cbn [argsort_pairs]. apply argsort_insert_sorted. exact IH.
Qed.

Lemma argsort_length (a : list Z) : length (argsort a) = length a.
Proof.
  unfold argsort. rewrite length_fmap, (Permutation_length (argsort_pairs_perm _)).
  rewrite length_zip_with, length_seq. lia.
Qed.

(** Sorting a rearrangement of a sorted list of keys recovers that list. *)
Lemma argsort_keys (a ks : list Z) :
  a ≡ₚ ks -> Sorted Z.le ks ->
  (argsort_pairs (zip a (seq 0 (length a)))).*1 = ks.
Proof.
  intros Hperm Hsorted. apply (Sorted_unique Z.le).
  - apply argsort_pairs_sorted.
  - exact Hsorted.
  - rewrite argsort_pairs_perm, fst_zip by (rewrite length_seq; lia). exact Hperm.
Qed.

(** Entry [k] of [argsort a] is a position of the [k]-th smallest key. *)
Lemma argsort_lookup (a ks : list Z) (k i : nat) :
  a ≡ₚ ks -> Sorted Z.le ks ->
  argsort a !! k = Some i -> a !! i = ks !! k /\ (i < length a)%nat.
Proof.
  intros Hperm Hsorted Hk. unfold argsort in Hk.
  rewrite list_lookup_fmap in Hk.
  destruct (argsort_pairs (zip a (seq 0 (length a))) !! k) as [[key i']|] eqn:Hpair;
    [|discriminate].
  cbn in Hk. injection Hk as ->.
  assert (Hin : (key, i) ∈ zip a (seq 0 (length a))).
  { rewrite <- (argsort_pairs_perm (zip a (seq 0 (length a)))).
    eapply list_elem_of_lookup_2. exact Hpair. }
  apply list_elem_of_lookup_1 in Hin as [i0 Hi0].
  apply lookup_zip_Some in Hi0 as [Ha Hseq].
  apply lookup_seq in Hseq as [Heq Hlt]. cbn in Heq. subst i0.
  split; [|exact Hlt].
  rewrite Ha, <- (argsort_keys a ks Hperm Hsorted), list_lookup_fmap, Hpair.
  reflexivity.
Qed.

(** The keys [c, c + 1, ..., c + n - 1]. *)
Lemma consecutive_sorted (c : Z) (n : nat) : Sorted Z.le (seqZ c (Z.of_nat n)).
Proof.
  apply StronglySorted_Sorted. revert c.
  induction n as [|n IH]; intros c; [constructor|].
  rewrite Nat2Z.inj_succ, seqZ_cons by lia.
  replace (Z.pred (Z.succ (Z.of_nat n))) with (Z.of_nat n) by lia.
  constructor; [apply IH|].
  apply Forall_forall. intros x Hx. apply elem_of_seqZ in Hx. lia.
Qed.

(** If the keys are a rearrangement of [c, ..., c + n - 1], the position
    holding key [key] is entry [key - c] of [argsort]: sorting by key
    inverts the assignment of keys to positions. *)
Lemma argsort_inverse (a : list Z) (c : Z) (i : nat) (key : Z) :
  a ≡ₚ seqZ c (Z.of_nat (length a)) ->
  a !! i = Some key ->
  (c <= key < c + Z.of_nat (length a))%Z
  /\ argsort a !! Z.to_nat (key - c) = Some i.
Proof.
  intros Hperm Hi.
  assert (Hrange : (c <= key < c + Z.of_nat (length a))%Z).
  { apply list_elem_of_lookup_2 in Hi. rewrite Hperm in Hi.
    apply elem_of_seqZ in Hi. lia. }
  split; [exact Hrange|].
  assert (Hlt : (Z.to_nat (key - c) < length (argsort a))%nat)
    by (rewrite argsort_length; lia).
  apply lookup_lt_is_Some in Hlt as [i' Hi'].
  destruct (argsort_lookup a _ _ _ Hperm (consecutive_sorted c (length a)) Hi')
    as [Ha _].
  rewrite lookup_seqZ_lt in Ha by lia.
  replace (c + Z.of_nat (Z.to_nat (key - c)))%Z with key in Ha by lia.
  assert (Hnodup : NoDup a) by (rewrite Hperm; apply NoDup_seqZ).
  rewrite Hi'. f_equal. eapply NoDup_lookup; eassumption.
Qed.

Lemma argsort_bound (a : list Z) (c : Z) :
  a ≡ₚ seqZ c (Z.of_nat (length a)) ->
  Forall (fun i => (i < length a)%nat) (argsort a).
Proof.
  intros Hperm. apply Forall_lookup. intros k i Hk.
  eapply argsort_lookup; [exact Hperm|apply consecutive_sorted|exact Hk].
Qed.

Lemma argsort_NoDup (a : list Z) : NoDup (argsort a).
Proof.
  unfold argsort. rewrite argsort_pairs_perm, snd_zip by (rewrite length_seq; lia).
  apply NoDup_seq.
Qed.

(** ** Indexing with an index array *)

Lemma take_Some {A : Type} (a : list A) (ind : list nat) :
  Forall (fun i => (i < length a)%nat) ind ->
  exists r, take a ind = Some r.
Proof.
  induction ind as [|i ind IH]; intros Hall; [eexists; reflexivity|].
  apply Forall_cons in Hall as [Hi Hall].
  destruct (IH Hall) as [r Hr]. apply lookup_lt_is_Some in Hi as [x Hx].
  exists (x :: r). cbn [take]. rewrite Hx, Hr. reflexivity.
Qed.

Lemma take_lookup {A : Type} (a : list A) (ind : list nat) (r : list A) (k i : nat) :
  take a ind = Some r -> ind !! k = Some i -> r !! k = a !! i.
Proof.
  revert r k. induction ind as [|i0 ind IH]; intros r k Htake Hk; [discriminate|].
  cbn [take] in Htake.
  destruct (a !! i0) as [x|] eqn:Hx; [|discriminate].
  destruct (take a ind) as [r'|]; [|discriminate].
  injection Htake as <-. destruct k as [|k].
  - injection Hk as <-. cbn. symmetry. exact Hx.
  - cbn in Hk |- *. apply IH; [reflexivity|exact Hk].
Qed.

Lemma take_length {A : Type} (a : list A) (ind : list nat) (r : list A) :
  take a ind = Some r -> length r = length ind.
Proof.
  revert r. induction ind as [|i0 ind IH]; intros r Htake.
  - injection Htake as <-. reflexivity.
  - cbn [take] in Htake.
    destruct (a !! i0) as [x|]; [|discriminate].
    destruct (take a ind) as [r'|]; [|discriminate].
    injection Htake as <-. cbn. f_equal. apply IH. reflexivity.
Qed.

(* ===================================================================== *)
(** * The stress getter (C5)                                              *)
(* ===================================================================== *)

Lemma take_seq (n : nat) (ind : list nat) :
  Forall (fun i => (i < n)%nat) ind -> take (seq 0 n) ind = Some ind.
Proof.
  induction ind as [|i ind IH]; intros Hall; [reflexivity|].
  apply Forall_cons in Hall as [Hi Hall]. cbn [take].
  rewrite lookup_seq_lt, (IH Hall) by exact Hi. reflexivity.
Qed.

Lemma voigt_index_map (row : list Qc) :
  length row = 6%nat -> take row ind ≫= reshape_33 = voigt_tensor row.
Proof.
  intros Hlen.
  destruct row as [|xx [|yy [|zz [|xy [|xz [|yz [|? ?]]]]]]]; try discriminate.
  reflexivity.
Qed.

Lemma extract_compute_st_rows (n : nat) (l : Lammps) (rows : list (list Qc)) :
  extract_compute_st n l = Some rows ->
  length rows = n /\ Forall (fun row => length row = 6%nat) rows.
Proof.
  intros Hrows. unfold extract_compute_st in Hrows. split.
  - apply length_mapM in Hrows. rewrite length_seq in Hrows. symmetry. exact Hrows.
  - apply mapM_Some_1 in Hrows. apply Forall_forall. intros row Hin.
    apply list_elem_of_lookup_1 in Hin as [i Hi].
    destruct (Forall2_lookup_r _ _ _ _ _ Hrows Hi) as [x [_ Hx]].
    apply length_mapM in Hx. rewrite length_seq in Hx. symmetry. exact Hx.
Qed.

Lemma extract_compute_st_lookup (n : nat) (l : Lammps) (rows : list (list Qc))
  (i : nat) (row : list Qc) :
  extract_compute_st n l = Some rows -> rows !! i = Some row ->
  forall k x, row !! k = Some x -> compute_st l !! i ≫= (fun r => r !! k) = Some x.
Proof.
  intros Hrows Hi k x Hk. unfold extract_compute_st in Hrows.
  apply mapM_Some_1 in Hrows.
  destruct (Forall2_lookup_r _ _ _ _ _ Hrows Hi) as [i' [Hi' Hrow]].
  apply lookup_seq in Hi' as [-> _]. cbv beta in Hrow.
  apply mapM_Some_1 in Hrow.
  destruct (Forall2_lookup_r _ _ _ _ _ Hrow Hk) as [k' [Hk' Hx]].
  apply lookup_seq in Hk' as [-> _]. exact Hx.
Qed.

(** The engine-frame tensors, entry by entry: the tensor at caller index
    [id - 1] is the Voigt reading of the report in the engine slot that
    holds atom [id], times the unit factor. *)
Lemma stress_engine_frame_reordered `{Constants} (j : LammpsInteractive)
  (ids : list Z) (rows : list (list Qc)) :
  extract_atom_id (len (structure j)) (_interactive_library j) = Some ids ->
  ids ≡ₚ seqZ 1 (Z.of_nat (len (structure j))) ->
  extract_compute_st (len (structure j)) (_interactive_library j) = Some rows ->
  exists frame : list mat3,
    stress_engine_frame j = Some frame
    /\ length frame = len (structure j)
    /\ (forall (slot : nat) (id : Z) (row : list Qc),
           ids !! slot = Some id -> rows !! slot = Some row ->
           exists t : mat3,
             voigt_tensor row = Some t
             /\ frame !! Z.to_nat (id - 1) = Some (mat_map stress_unit t)).
Proof.
  intros Hids Hperm Hrows. set (n := len (structure j)) in *.
  assert (Hlen : length ids = n).
  { apply length_mapM in Hids. rewrite length_seq in Hids. symmetry. exact Hids. }
  destruct (extract_compute_st_rows _ _ _ Hrows) as [Hrlen Hsix].
  set (ids0 := map (fun i => (i - 1)%Z) ids).
  assert (Hlen0 : length ids0 = n) by (unfold ids0; rewrite length_map; exact Hlen).
  assert (Hperm0 : ids0 ≡ₚ seqZ 0 (Z.of_nat (length ids0))).
  { rewrite Hlen0. unfold ids0.
    replace (seqZ 0 (Z.of_nat n)) with (Z.add (-1) <$> seqZ 1 (Z.of_nat n))
      by (rewrite fmap_add_seqZ; reflexivity).
    rewrite <- Hperm. erewrite map_ext; [reflexivity|]. intros i. cbn. lia. }
  pose proof (argsort_bound ids0 0 Hperm0) as Hbound. rewrite Hlen0 in Hbound.
  assert (Hbound' : Forall (fun i => (i < length rows)%nat) (argsort ids0))
    by (rewrite Hrlen; exact Hbound).
  destruct (take_Some rows (argsort ids0) Hbound') as [reordered Hre].
  assert (Hmap : is_Some (mapM (fun row => take row ind ≫= reshape_33) reordered)).
  { apply mapM_is_Some_2, Forall_lookup. intros k row Hk. unfold compose.
    assert (Hk' : (k < length (argsort ids0))%nat).
    { rewrite <- (take_length _ _ _ Hre). eapply lookup_lt_Some. exact Hk. }
    apply lookup_lt_is_Some in Hk' as [i Hi].
    rewrite (take_lookup _ _ _ _ _ Hre Hi) in Hk.
    assert (Hrow6 : length row = 6%nat)
      by (eapply (proj1 (Forall_lookup _ _) Hsix); exact Hk).
    rewrite (voigt_index_map row Hrow6).
    destruct row as [|? [|? [|? [|? [|? [|? [|? ?]]]]]]]; try discriminate.
    eexists. reflexivity. }
  destruct Hmap as [tensors Htensors].
  exists (map (mat_map stress_unit) tensors).
  split; [|split].
  - unfold stress_engine_frame. fold n. rewrite Hids. cbn [mbind option_bind].
    fold ids0. rewrite Hlen0, (take_seq _ _ Hbound). cbn [mbind option_bind].
    rewrite Hrows. cbn [mbind option_bind]. rewrite Hre. cbn [mbind option_bind].
    rewrite Htensors. reflexivity.
  - rewrite length_map, <- (length_mapM _ _ _ Htensors), (take_length _ _ _ Hre),
      argsort_length. exact Hlen0.
  - intros slot id row Hslot Hrow.
    assert (Hslot0 : ids0 !! slot = Some (id - 1)%Z).
    { unfold ids0. change (map ?f ids) with (f <$> ids).
      rewrite list_lookup_fmap, Hslot. reflexivity. }
    destruct (argsort_inverse ids0 0 slot (id - 1) Hperm0 Hslot0) as [_ Hsort].
    replace (id - 1 - 0)%Z with (id - 1)%Z in Hsort by lia.
    assert (Hre_k : reordered !! Z.to_nat (id - 1) = Some row).
    { rewrite (take_lookup _ _ _ _ _ Hre Hsort). exact Hrow. }
    apply mapM_Some_1 in Htensors.
    destruct (Forall2_lookup_l _ _ _ _ _ Htensors Hre_k) as [t [Ht Hvoigt]].
    rewrite voigt_index_map in Hvoigt
      by (eapply (proj1 (Forall_lookup _ _) Hsix); exact Hrow).
    exists t. split; [exact Hvoigt|].
    change (map ?f tensors) with (f <$> tensors).
    rewrite list_lookup_fmap, Ht. reflexivity.
Qed.

(** C5. Let the engine hold the atoms with IDs [1 .. n] in any slot
    order, and a six-component report per slot. Then the stress getter
    returns [n] tensors, and the tensor at caller index [id - 1] comes
    from the slot that holds atom [id]: its report is read through the
    index map [[0, 3, 4, 3, 1, 5, 4, 5, 2]] into a symmetric tensor and
    multiplied by the unit factor, and only then, when the trace test
    fires, rotated on both indices. *)
Theorem C5_stress_reordered_then_rotated `{Constants} (j : LammpsInteractive)
  (ids : list Z) (rows : list (list Qc)) :
  extract_atom_id (len (structure j)) (_interactive_library j) = Some ids ->
  ids ≡ₚ seqZ 1 (Z.of_nat (len (structure j))) ->
  extract_compute_st (len (structure j)) (_interactive_library j) = Some rows ->
  let r := R (_prism j) in
  let rotate (t' : mat3) :=
    if trace_is_not_3 r then mat_mul (mat_mul r t') (transpose r) else t' in
  exists frame result : list mat3,
    stress_engine_frame j = Some frame
    /\ (interactive_stress_getter j).2 = Some result
    /\ length result = len (structure j)
    /\ result = map rotate frame
    /\ (forall (slot : nat) (id : Z) (row : list Qc),
           ids !! slot = Some id -> rows !! slot = Some row ->
           exists t : mat3,
             voigt_tensor row = Some t
             /\ result !! Z.to_nat (id - 1) = Some (rotate (mat_map stress_unit t))).
Proof.
  intros Hids Hperm Hrows r rotate.
  destruct (stress_engine_frame_reordered j ids rows Hids Hperm Hrows)
    as [frame [Hframe [Hlen Hslots]]].
  exists frame, (map rotate frame).
  split; [exact Hframe|]. split; [|split; [|split; [reflexivity|]]].
  - rewrite stress_getter_value. unfold stress_value. rewrite Hframe.
    cbn [mbind option_bind]. fold r. unfold rotate.
    destruct (trace_is_not_3 r).
    + rewrite einsum_rotation. reflexivity.
    + rewrite map_id. reflexivity.
  - rewrite length_map. exact Hlen.
  - intros slot id row Hslot Hrow.
    destruct (Hslots slot id row Hslot Hrow) as [t [Hvoigt Ht]].
    exists t. split; [exact Hvoigt|].
    change (map rotate frame) with (rotate <$> frame).
    rewrite list_lookup_fmap, Ht. reflexivity.
Qed.

(** C5 for two atoms held in the order ID 2, ID 1 on the turned cube. *)
Lemma C5_stress_reordered_then_rotated_witness :
  let r := quarter_turn in
  let rotate (t' : mat3) :=
    if trace_is_not_3 r then mat_mul (mat_mul r t') (transpose r) else t' in
  exists frame result : list mat3,
    @stress_engine_frame unit_constants swapped_job = Some frame
    /\ (@interactive_stress_getter unit_constants swapped_job).2 = Some result
    /\ length result = 2%nat
    /\ result = map rotate frame
    /\ (forall (slot : nat) (id : Z) (row : list Qc),
           [2%Z; 1%Z] !! slot = Some id ->
           compute_st swapped_engine !! slot = Some row ->
           exists t : mat3,
             voigt_tensor row = Some t
             /\ result !! Z.to_nat (id - 1)
                = Some (rotate (mat_map (@stress_unit unit_constants) t))).
Proof.
  apply (@C5_stress_reordered_then_rotated unit_constants swapped_job
           [2%Z; 1%Z] (compute_st swapped_engine)).
  - reflexivity.
  - apply perm_swap.
  - reflexivity.
Defined.

(** The same job evaluated: the tensor of atom 1 (engine slot 1) comes
    first, and each tensor is the rotated Voigt reading of its report. *)
Example stress_getter_swapped :
  (@interactive_stress_getter unit_constants swapped_job).2
  = Some [M3 (V3 (qz 8) (qz (-10)) (qz (-12)))
             (V3 (qz (-10)) (qz 7) (qz 11))
             (V3 (qz (-12)) (qz 11) (qz 9));
          M3 (V3 (qz 2) (qz (-4)) (qz (-6)))
             (V3 (qz (-4)) (qz 1) (qz 5))
             (V3 (qz (-6)) (qz 5) (qz 3))]
  /\ calls (@interactive_stress_getter unit_constants swapped_job).1.(_interactive_library)
     = [Command "compute st all stress/atom NULL"; Command "run 0"].
Proof. split; by_evaluation. Qed.

(* ===================================================================== *)
(** * The force callback (C4)                                             *)
(* ===================================================================== *)

Lemma qz_add (a b : Z) : qz (a + b) = qz a + qz b.
Proof.
  unfold qz. apply Qc_is_canon. unfold Qcplus, Q2Qc. cbn [this].
  rewrite !Qred_correct, inject_Z_plus. reflexivity.
Qed.

Lemma qz_nonzero (z : Z) : z <> 0%Z -> qz z <> 0.
Proof.
  intros Hz Heq. apply Hz. unfold qz in Heq. apply Q2Qc_eq_iff in Heq.
  unfold Qeq in Heq. cbn in Heq. lia.
Qed.

Lemma sum_axis0_sub (b : list vec3) (m : vec3) :
  sum_axis0 (map (fun v => vsub v m) b)
  = vsub (sum_axis0 b) (vscale (qz (Z.of_nat (length b))) m).
Proof.
  induction b as [|v b IH].
  - cbn. change (qz 0) with (Q2Qc 0). linalg.
  - cbn [map sum_axis0 fold_right length]. fold (sum_axis0 (map (fun v => vsub v m) b)).
    fold (sum_axis0 b). rewrite IH, Nat2Z.inj_succ, <- Z.add_1_r, qz_add.
    change (qz 1) with (Q2Qc 1). linalg.
Qed.

(** Subtracting the column-wise mean leaves a buffer whose columns sum to
    zero, and so have mean zero. *)
Lemma debias_sum_zero (b : list vec3) :
  b <> [] ->
  sum_axis0 (map (fun v => vsub v (mean_axis0 b)) b) = vzero
  /\ mean_axis0 (map (fun v => vsub v (mean_axis0 b)) b) = vzero.
Proof.
  intros Hne.
  assert (Hn : qz (Z.of_nat (length b)) <> 0).
  { apply qz_nonzero. destruct b; [contradiction|cbn; lia]. }
  assert (Hsum : sum_axis0 (map (fun v => vsub v (mean_axis0 b)) b) = vzero).
  { rewrite sum_axis0_sub. unfold mean_axis0.
    destruct (sum_axis0 b) as [sx sy sz]. unfold_linalg.
    f_equal; field; exact Hn. }
  split; [exact Hsum|].
  unfold mean_axis0 at 1. rewrite Hsum. linalg.
Qed.

Lemma assign_rows_length (buf : list vec3) (tags : list nat) (rows : list vec3) :
  length (assign_rows buf tags rows) = length buf.
Proof.
  unfold assign_rows. revert buf rows.
  induction tags as [|t tags IH]; intros buf rows; [reflexivity|].
  destruct rows as [|r rows]; [reflexivity|].
  cbn [zip_with foldl]. rewrite IH. apply length_insert.
Qed.

Lemma assign_rows_untouched (buf : list vec3) (tags : list nat) (rows : list vec3)
  (i : nat) :
  i ∉ tags -> assign_rows buf tags rows !! i = buf !! i.
Proof.
  unfold assign_rows. revert buf rows.
  induction tags as [|t tags IH]; intros buf rows Hnin; [reflexivity|].
  destruct rows as [|r rows]; [reflexivity|].
  apply not_elem_of_cons in Hnin as [Hne Hnin].
  cbn [zip_with foldl fst snd]. rewrite IH by exact Hnin.
  apply list_lookup_insert_ne. congruence.
Qed.

(** With pairwise distinct slots in range, slot [tags[k]] ends up holding
    row [k]. *)
Lemma assign_rows_lookup (buf : list vec3) (tags : list nat) (rows : list vec3)
  (k i : nat) :
  NoDup tags -> length rows = length tags ->
  Forall (fun t => (t < length buf)%nat) tags ->
  tags !! k = Some i ->
  assign_rows buf tags rows !! i = rows !! k.
Proof.
  revert buf rows k. induction tags as [|t tags IH]; intros buf rows k Hnd Hlen Hall Hk;
    [discriminate|].
  destruct rows as [|r rows]; [discriminate|].
  apply NoDup_cons in Hnd as [Hnin Hnd]. apply Forall_cons in Hall as [Ht Hall].
  destruct k as [|k].
  - injection Hk as <-.
    change (assign_rows buf (t :: tags) (r :: rows))
      with (assign_rows (<[t:=r]> buf) tags rows).
    rewrite assign_rows_untouched by exact Hnin.
    apply list_lookup_insert_eq. exact Ht.
  - change (assign_rows buf (t :: tags) (r :: rows))
      with (assign_rows (<[t:=r]> buf) tags rows).
    cbn in Hk |- *. apply IH.
    + exact Hnd.
    + cbn in Hlen. lia.
    + rewrite length_insert. exact Hall.
    + exact Hk.
Qed.

Lemma vadd_zero_l (v : vec3) : vadd vzero v = v.
Proof. destruct v. linalg. Qed.

Lemma vadd_comm (a b : vec3) : vadd a b = vadd b a.
Proof. linalg. Qed.

Lemma vadd_assoc (a b c : vec3) : vadd a (vadd b c) = vadd (vadd a b) c.
Proof. linalg. Qed.

Lemma sum_axis0_perm (a b : list vec3) : a ≡ₚ b -> sum_axis0 a = sum_axis0 b.
Proof.
  induction 1 as [|v a b _ IH|u v a|a b c _ IH1 _ IH2]; cbn.
  - reflexivity.
  - fold (sum_axis0 a). fold (sum_axis0 b). rewrite IH. reflexivity.
  - fold (sum_axis0 a). rewrite !vadd_assoc, (vadd_comm v u). reflexivity.
  - congruence.
Qed.

Lemma take_perm {A : Type} (a : list A) (ind ind' : list nat) (r : list A) :
  ind ≡ₚ ind' -> take a ind = Some r ->
  exists r', take a ind' = Some r' /\ r ≡ₚ r'.
Proof.
  intros Hperm. revert r.
  induction Hperm as [|i ind ind' _ IH|i i' ind|ind ind' ind'' _ IH1 _ IH2]; intros r Hr.
  - exists r. split; [exact Hr|reflexivity].
  - cbn [take] in Hr |- *. destruct (a !! i) as [v|]; [|discriminate].
    destruct (take a ind) as [r0|]; [|discriminate]. injection Hr as <-.
    destruct (IH r0 eq_refl) as [r' [-> Hr']].
    exists (v :: r'). split; [reflexivity|]. rewrite Hr'. reflexivity.
  - cbn [take] in Hr |- *.
    destruct (a !! i) as [v|]; destruct (a !! i') as [v'|]; try discriminate;
      destruct (take a ind) as [r0|]; try discriminate.
    injection Hr as <-. exists (v :: v' :: r0). split; [reflexivity|].
    apply Permutation_swap.
  - destruct (IH1 r Hr) as [r' [Hr' Hp1]]. destruct (IH2 r' Hr') as [r'' [Hr'' Hp2]].
    exists r''. split; [exact Hr''|]. rewrite Hp1. exact Hp2.
Qed.

Lemma take_seq_self {A : Type} (pre a : list A) :
  take (pre ++ a)%list (seq (length pre) (length a)) = Some a.
Proof.
  revert pre. induction a as [|v a IH]; intros pre; [reflexivity|].
  cbn [length seq take].
  rewrite lookup_app_r, Nat.sub_diag by lia. cbn [lookup list_lookup].
  specialize (IH (pre ++ [v])%list).
  rewrite <- app_assoc, length_app in IH. cbn in IH.
  rewrite Nat.add_1_r in IH. rewrite IH. reflexivity.
Qed.

(** Indexing with a rearrangement of all positions rearranges the array. *)
Lemma take_all_perm {A : Type} (a r : list A) (ind : list nat) :
  ind ≡ₚ seq 0 (length a) -> take a ind = Some r -> r ≡ₚ a.
Proof.
  intros Hperm Hr. destruct (take_perm a _ _ r Hperm Hr) as [r' [Hr' Hp]].
  pose proof (take_seq_self [] a) as Hself. cbn in Hself.
  rewrite Hself in Hr'. injection Hr' as <-. exact Hp.
Qed.

Lemma take_from_lookups {A : Type} (a : list A) (ind : list nat) (rows : list A) :
  length rows = length ind ->
  (forall k i, ind !! k = Some i -> a !! i = rows !! k) ->
  take a ind = Some rows.
Proof.
  revert rows. induction ind as [|i ind IH]; intros rows Hlen Hall.
  - destruct rows; [reflexivity|discriminate].
  - destruct rows as [|v rows]; [discriminate|]. cbn [take].
    rewrite (Hall 0%nat i eq_refl). cbn [lookup list_lookup].
    rewrite (IH rows); [reflexivity|cbn in Hlen; lia|].
    intros k i' Hk. apply (Hall (S k) i'). exact Hk.
Qed.

Lemma argsort_perm_seq (a : list Z) : argsort a ≡ₚ seq 0 (length a).
Proof.
  unfold argsort. rewrite argsort_pairs_perm, snd_zip by (rewrite length_seq; lia).
  reflexivity.
Qed.

Lemma take_zeros (n : nat) (ind : list nat) (old : list vec3) :
  take (replicate n vzero) ind = Some old -> old = replicate (length ind) vzero.
Proof.
  revert old. induction ind as [|i ind IH]; intros old Hold.
  - injection Hold as <-. reflexivity.
  - cbn [take] in Hold.
    destruct (replicate n vzero !! i) as [v|] eqn:Hv; [|discriminate].
    destruct (take (replicate n vzero) ind) as [r|]; [|discriminate].
    injection Hold as <-. apply lookup_replicate_1 in Hv as [-> _].
    cbn. f_equal. apply IH. reflexivity.
Qed.

Lemma zip_with_vadd_zeros (forces : list vec3) :
  zip_with vadd (replicate (length forces) vzero) forces = forces.
Proof.
  induction forces as [|f forces IH]; [reflexivity|].
  cbn. rewrite vadd_zero_l, IH. reflexivity.
Qed.

Lemma fill_zero (fext : list vec3) :
  map (fun _ => vzero) fext = replicate (length fext) vzero.
Proof. induction fext as [|v fext IH]; [reflexivity|]. cbn. rewrite IH. reflexivity. Qed.

(** Entry [k] of [argsort a] is a slot holding the [k]-th smallest key. *)
Lemma argsort_slot (a : list Z) (k i : nat) :
  argsort a !! k = Some i -> a !! i = sorted_ids a !! k.
Proof.
  intros Hk. unfold argsort in Hk. unfold sorted_ids.
  rewrite list_lookup_fmap in Hk. rewrite list_lookup_fmap.
  destruct (argsort_pairs (zip a (seq 0 (length a))) !! k) as [[key i']|] eqn:Hpair;
    [|discriminate].
  cbn in Hk. injection Hk as ->. cbn.
  assert (Hin : (key, i) ∈ zip a (seq 0 (length a))).
  { rewrite <- (argsort_pairs_perm (zip a (seq 0 (length a)))).
    eapply list_elem_of_lookup_2. exact Hpair. }
  apply list_elem_of_lookup_1 in Hin as [i0 Hi0].
  apply lookup_zip_Some in Hi0 as [Ha Hseq].
  apply lookup_seq in Hseq as [Heq _]. cbn in Heq. subst i0. exact Ha.
Qed.

Lemma sorted_ids_sorted (a : list Z) : Sorted Z.le (sorted_ids a).
Proof. apply argsort_pairs_sorted. Qed.

Lemma sorted_ids_perm (a : list Z) : sorted_ids a ≡ₚ a.
Proof.
  unfold sorted_ids. rewrite argsort_pairs_perm, fst_zip by (rewrite length_seq; lia).
  reflexivity.
Qed.

Lemma argsort_in_range (a : list Z) : Forall (fun i => (i < length a)%nat) (argsort a).
Proof.
  rewrite argsort_perm_seq. apply Forall_forall. intros i Hi.
  apply elem_of_seq in Hi. lia.
Qed.

(** What one call of [fix_external] does, for buffers of matching sizes. *)
Lemma fix_external_run
  (function : list vec3 -> Z -> nat -> list vec3)
  (ntimestep : Z) (nlocal : nat) (tag : list Z) (x fext : list vec3) :
  length x = length tag ->
  length fext = length tag ->
  (forall xs : list vec3,
      length xs = length tag -> length (function xs ntimestep nlocal) = length tag) ->
  exists xs buf : list vec3,
    take x (argsort tag) = Some xs
    /\ length buf = length tag
    /\ function xs ntimestep nlocal ≡ₚ buf
    /\ (forall k slot, argsort tag !! k = Some slot ->
                       buf !! slot = function xs ntimestep nlocal !! k)
    /\ fix_external function ntimestep nlocal tag x fext
       = Some (map (fun v => vsub v (mean_axis0 buf)) buf).
Proof.
  intros Hx Hfext Hfun.
  set (tags := argsort tag).
  assert (Htl : length tags = length tag) by apply argsort_length.
  assert (Hbound : Forall (fun i => (i < length tag)%nat) tags)
    by apply argsort_in_range.
  assert (Hbx : Forall (fun i => (i < length x)%nat) tags) by (rewrite Hx; exact Hbound).
  destruct (take_Some x tags Hbx) as [xs Hxs].
  assert (Hxl : length xs = length tag) by (rewrite (take_length _ _ _ Hxs); exact Htl).
  set (forces := function xs ntimestep nlocal).
  assert (Hfl : length forces = length tag) by (apply Hfun; exact Hxl).
  set (zeros := replicate (length fext) vzero).
  assert (Hbz : Forall (fun i => (i < length zeros)%nat) tags).
  { unfold zeros. rewrite length_replicate, Hfext. exact Hbound. }
  destruct (take_Some zeros tags Hbz) as [old Hold].
  assert (Hold' : old = replicate (length forces) vzero).
  { rewrite (take_zeros _ _ _ Hold), Htl, Hfl. reflexivity. }
  set (buf := assign_rows zeros tags forces).
  assert (Hbl : length buf = length tag).
  { unfold buf. rewrite assign_rows_length. unfold zeros.
    rewrite length_replicate. exact Hfext. }
  assert (Hlookup : forall k i, tags !! k = Some i -> buf !! i = forces !! k).
  { intros k i Hk. apply assign_rows_lookup; try assumption.
    - apply argsort_NoDup.
    - rewrite Hfl, Htl. reflexivity. }
  exists xs, buf. split; [exact Hxs|]. split; [exact Hbl|]. split; [|split].
  - apply (take_all_perm buf forces tags).
    + rewrite Hbl. apply argsort_perm_seq.
    + apply take_from_lookups; [rewrite Hfl, Htl; reflexivity|exact Hlookup].
  - exact Hlookup.
  - unfold fix_external. fold tags. rewrite fill_zero. fold zeros.
    rewrite Hxs. cbn [mbind option_bind]. rewrite Hold. cbn [mbind option_bind].
    fold forces. unfold broadcast_rows. rewrite Htl, <- Hfl, Nat.eqb_refl.
    cbn [mbind option_bind]. rewrite Hold', zip_with_vadd_zeros. reflexivity.
Qed.

(** C4. In exact arithmetic, let the engine pass [n > 0] atoms with
    pairwise distinct IDs, with an ID array and coordinate and force
    buffers of [n] rows each, and let the user function return [n] rows.
    Then [fix_external] returns normally, and with [ids] the atom IDs in
    ascending order:
    - the user function is called on the coordinates in ascending ID
      order: row [k] of its argument is the coordinate row of the slot
      [argsort(tag)[k]], which holds the atom with the [k]-th smallest ID;
    - on return, that slot contains row [k] of the returned forces minus
      the column-wise mean of the returned forces, whatever the buffer
      held before; every slot is reached this way;
    - the columns of the buffer sum to zero, so its column-wise mean is
      zero. *)
Theorem C4_fix_external_debiased
  (function : list vec3 -> Z -> nat -> list vec3)
  (ntimestep : Z) (nlocal : nat) (tag : list Z) (x fext : list vec3) :
  fext <> [] ->
  NoDup tag ->
  length x = length tag ->
  length fext = length tag ->
  (forall xs : list vec3,
      length xs = length tag -> length (function xs ntimestep nlocal) = length tag) ->
  exists (ids : list Z) (xs result : list vec3),
    Sorted Z.le ids /\ ids ≡ₚ tag
    /\ argsort tag ≡ₚ seq 0 (length fext)
    /\ take x (argsort tag) = Some xs
    /\ fix_external function ntimestep nlocal tag x fext = Some result
    /\ length result = length fext
    /\ (forall (k slot : nat),
           argsort tag !! k = Some slot ->
           tag !! slot = ids !! k
           /\ xs !! k = x !! slot
           /\ exists f : vec3,
               function xs ntimestep nlocal !! k = Some f
               /\ result !! slot
                  = Some (vsub f (mean_axis0 (function xs ntimestep nlocal))))
    /\ sum_axis0 result = vzero
    /\ mean_axis0 result = vzero.
Proof.
  intros Hne _ Hx Hfext Hfun.
  destruct (fix_external_run function ntimestep nlocal tag x fext Hx Hfext Hfun)
    as [xs [buf [Hxs [Hbl [Hbp [Hlookup Hrun]]]]]].
  assert (Hfl : length (function xs ntimestep nlocal) = length tag).
  { rewrite (Permutation_length Hbp). exact Hbl. }
  assert (Hmean : mean_axis0 buf = mean_axis0 (function xs ntimestep nlocal)).
  { unfold mean_axis0. rewrite (sum_axis0_perm _ _ Hbp), Hbl, Hfl. reflexivity. }
  assert (Hbne : buf <> []).
  { intros Hnil. apply Hne. apply length_zero_iff_nil.
    rewrite Hfext, <- Hbl, Hnil. reflexivity. }
  exists (sorted_ids tag), xs, (map (fun v => vsub v (mean_axis0 buf)) buf).
  split; [apply sorted_ids_sorted|]. split; [apply sorted_ids_perm|].
  split; [rewrite Hfext; apply argsort_perm_seq|].
  split; [exact Hxs|]. split; [exact Hrun|].
  split; [rewrite length_map, Hbl, Hfext; reflexivity|].
  split; [|apply debias_sum_zero; exact Hbne].
  intros k slot Hk. split; [apply argsort_slot; exact Hk|].
  split; [apply (take_lookup _ _ _ _ _ Hxs Hk)|].
  assert (Hkl : (k < length (function xs ntimestep nlocal))%nat).
  { rewrite Hfl, <- (argsort_length tag). eapply lookup_lt_Some. exact Hk. }
  apply lookup_lt_is_Some in Hkl as [f Hf].
  exists f. split; [exact Hf|].
  change (map ?g buf) with (g <$> buf).
  rewrite list_lookup_fmap, (Hlookup _ _ Hk), Hf, Hmean. reflexivity.
Qed.

(** C4 for two atoms held in the order ID 2, ID 1, a buffer that is not
    zero on entry, and a constant non-zero force. *)
Lemma C4_fix_external_debiased_witness :
  exists (ids : list Z) (xs result : list vec3),
    Sorted Z.le ids /\ ids ≡ₚ [2%Z; 1%Z]
    /\ argsort [2%Z; 1%Z] ≡ₚ seq 0 2
    /\ take [V3 1 0 0; V3 0 0 0] (argsort [2%Z; 1%Z]) = Some xs
    /\ fix_external constant_force 0 2 [2%Z; 1%Z] [V3 1 0 0; V3 0 0 0]
         [V3 (qz 5) (qz 5) (qz 5); V3 (qz 7) (qz 7) (qz 7)]
       = Some result
    /\ length result = 2%nat
    /\ (forall (k slot : nat),
           argsort [2%Z; 1%Z] !! k = Some slot ->
           [2%Z; 1%Z] !! slot = ids !! k
           /\ xs !! k = [V3 1 0 0; V3 0 0 0] !! slot
           /\ exists f : vec3,
               constant_force xs 0 2 !! k = Some f
               /\ result !! slot = Some (vsub f (mean_axis0 (constant_force xs 0 2))))
    /\ sum_axis0 result = vzero
    /\ mean_axis0 result = vzero.
Proof.
  apply (C4_fix_external_debiased constant_force 0 2 [2%Z; 1%Z]
           [V3 1 0 0; V3 0 0 0]
           [V3 (qz 5) (qz 5) (qz 5); V3 (qz 7) (qz 7) (qz 7)]).
  - discriminate.
  - by_evaluation.
  - reflexivity.
  - reflexivity.
  - intros xs Hxs. unfold constant_force. rewrite length_map. exact Hxs.
Defined.

(** C4 as stated fails on the float64 buffers the callback works on. For
    three atoms and a user function returning [0.1] in every component,
    the column sums are [0.1 + 0.1 + 0.1 = 0.30000000000000004], the mean
    is [0.10000000000000002], and every entry of the buffer is left at
    [-2^-56] (about [-1.39e-17]) on return: the column-wise mean of the
    buffer is [-2^-56], not zero. *)
Lemma C4_counterexample :
  let result :=
    fix_external_float64 constant_force_float64 0 3 [1%Z; 2%Z; 3%Z]
      [(0, 0, 0)%float; (1, 0, 0)%float; (2, 0, 0)%float]
      [row64_zero; row64_zero; row64_zero] in
  result = Some (replicate 3 (-0x1p-56, -0x1p-56, -0x1p-56)%float)
  /\ mean_axis0_float64 <$> result = Some (-0x1p-56, -0x1p-56, -0x1p-56)%float
  /\ (-0x1p-56 =? 0)%float = false.
Proof. cbv zeta. repeat split; vm_compute; reflexivity. Qed.

(** The same call evaluated: the constant force is cancelled in every
    slot. With forces equal to the coordinates, the atom with ID 1 (slot
    1, at the origin) and the atom with ID 2 (slot 0, at [(1, 0, 0)])
    receive opposite halves. *)
Example fix_external_samples :
  fix_external constant_force 0 2 [2%Z; 1%Z] [V3 1 0 0; V3 0 0 0]
    [V3 (qz 5) (qz 5) (qz 5); V3 (qz 7) (qz 7) (qz 7)]
  = Some [vzero; vzero]
  /\ argsort [2%Z; 1%Z] = [1%nat; 0%nat]
  /\ fix_external position_force 0 2 [2%Z; 1%Z] [V3 1 0 0; V3 0 0 0]
       [V3 (qz 5) (qz 5) (qz 5); V3 (qz 7) (qz 7) (qz 7)]
     = Some [V3 (qfrac 1 2) 0 0; V3 (qfrac (-1) 2) 0 0].
Proof. repeat split; by_evaluation. Qed.

(* ===================================================================== *)
(** * Further properties of the getters and setters                       *)
(* ===================================================================== *)

Lemma reshape_n3_is_Some (n : nat) (a : list Qc) :
  is_Some (reshape_n3 n a) <-> length a = (3 * n)%nat.
Proof.
  revert a. induction n as [|n IH]; intros a.
  - destruct a; cbn; split; intros H; try (eexists; reflexivity); try discriminate.
    destruct H as [? H]. discriminate H.
  - destruct a as [|x [|y [|z a]]]; cbn [reshape_n3 length];
      try (split; [intros [? H]; discriminate H|intros H; lia]).
    specialize (IH a). destruct (reshape_n3 n a) as [rows|].
    + split; [intros _|intros _; eexists; reflexivity].
      assert (Hl : length a = (3 * n)%nat) by (apply IH; eexists; reflexivity). lia.
    + split; [intros [? H]; discriminate H|].
      intros Hl. assert (Hs : is_Some (@None (list vec3))) by (apply IH; lia).
      destruct Hs as [? Hs]. discriminate Hs.
Qed.

Lemma flatten_length (a : list vec3) : length (flatten a) = (3 * length a)%nat.
Proof.
  unfold flatten. induction a as [|v a IH]; [reflexivity|].
  cbn [map concat]. rewrite length_app, IH. cbn [length]. lia.
Qed.

(** X1. The positions and the forces getter raise exactly when the flat
    array gathered from the engine does not have three entries per atom
    of the structure. *)
Theorem getters_raise_on_size_mismatch `{UnitConverter} (j : LammpsInteractive) :
  (is_Some (interactive_positions_getter j)
   <-> length (atom_x (_interactive_library j)) = (3 * len (structure j))%nat)
  /\ (is_Some (interactive_forces_getter j)
      <-> length (atom_f (_interactive_library j)) = (3 * len (structure j))%nat).
Proof.
  assert (Hget : forall (label : string) (r : mat3) (n : nat) (a : list Qc),
             is_Some
               (match reshape_n3 n a with
                | Some rows =>
                    Some (convert_array_to_pyiron_units label
                            (if trace_is_not_3 r then matmul rows (transpose r) else rows))
                | None => None
                end)
             <-> length a = (3 * n)%nat).
  { intros label r n a. rewrite <- reshape_n3_is_Some.
    destruct (reshape_n3 n a); split; intros [? Hs]; try discriminate Hs;
      eexists; reflexivity. }
  split.
  - unfold interactive_positions_getter. rewrite gather_atoms_x. apply Hget.
  - unfold interactive_forces_getter. rewrite gather_atoms_f. apply Hget.
Qed.

Lemma stress_value_after_setup `{Constants} (j : LammpsInteractive) :
  stress_value (interactive_stress_getter j).1 = stress_value j.
Proof.
  unfold interactive_stress_getter.
  destruct (bool_decide ("stress" ∈ dom (interactive_cache j))); reflexivity.
Qed.

(** X2. The stress getter sets up the per-atom compute once: when the
    cache has no "stress" entry it issues "compute st all stress/atom
    NULL" and "run 0" and stores an empty list under "stress"; a second
    call issues no command, leaves the cache alone and returns the same
    value. The getter never stores the tensors it returns. *)
Theorem stress_getter_sets_up_once `{Constants} (j : LammpsInteractive) :
  let j1 := (interactive_stress_getter j).1 in
  let j2 := (interactive_stress_getter j1).1 in
  calls (_interactive_library j1)
  = (calls (_interactive_library j)
     ++ if bool_decide ("stress" ∈ dom (interactive_cache j)) then []
        else [Command "compute st all stress/atom NULL"; Command "run 0"])%list
  /\ interactive_cache j1
     = (if bool_decide ("stress" ∈ dom (interactive_cache j)) then interactive_cache j
        else <["stress" := []]> (interactive_cache j))
  /\ j2 = j1
  /\ (interactive_stress_getter j1).2 = (interactive_stress_getter j).2.
Proof.
  intros j1 j2.
  assert (Hdom : bool_decide ("stress" ∈ dom (interactive_cache j1)) = true).
  { unfold j1, interactive_stress_getter.
    destruct (bool_decide ("stress" ∈ dom (interactive_cache j))) eqn:Hin.
    - exact Hin.
    - cbn [fst interactive_cache set_cache]. apply bool_decide_eq_true.
      apply elem_of_dom. rewrite lookup_insert_eq. eexists. reflexivity. }
  split; [|split; [|split]].
  - unfold j1, interactive_stress_getter.
    destruct (bool_decide ("stress" ∈ dom (interactive_cache j)));
      cbn [fst]; [rewrite app_nil_r; reflexivity|].
    cbn [_interactive_library set_cache].
    rewrite !lib_command_calls, <- app_assoc. reflexivity.
  - unfold j1, interactive_stress_getter.
    destruct (bool_decide ("stress" ∈ dom (interactive_cache j))); reflexivity.
  - unfold j2. unfold interactive_stress_getter at 1. rewrite Hdom. reflexivity.
  - rewrite !stress_getter_value. apply stress_value_after_setup.
Qed.

(** ** Symmetry and trace of the tensors *)

Lemma voigt_reading_symmetric (row : list Qc) (t : mat3) :
  take row ind ≫= reshape_33 = Some t -> symmetric t.
Proof.
  unfold ind. cbn [take].
  destruct (row !! 0%nat), (row !! 1%nat), (row !! 2%nat), (row !! 3%nat),
    (row !! 4%nat), (row !! 5%nat); cbn; try discriminate.
  intros [= <-]. reflexivity.
Qed.

Lemma mat_map_symmetric (f : Qc -> Qc) (t : mat3) :
  symmetric t -> symmetric (mat_map f t).
Proof.
  unfold symmetric. intros Ht.
  replace (transpose (mat_map f t)) with (mat_map f (transpose t)) by reflexivity.
  rewrite Ht. reflexivity.
Qed.

Lemma rotation_symmetric (r t : mat3) :
  symmetric t -> symmetric (mat_mul (mat_mul r t) (transpose r)).
Proof.
  unfold symmetric. intros Ht.
  replace (transpose (mat_mul (mat_mul r t) (transpose r)))
    with (mat_mul (mat_mul r (transpose t)) (transpose r)) by linalg.
  rewrite Ht. reflexivity.
Qed.

Lemma mat_mul_identity_r (t : mat3) : mat_mul t identity = t.
Proof. destruct t as [[? ? ?] [? ? ?] [? ? ?]]. linalg. Qed.

Lemma trace_cyclic (r t : mat3) :
  trace (mat_mul (mat_mul r t) (transpose r)) = trace (mat_mul t (mat_mul (transpose r) r)).
Proof. linalg. Qed.

(** A rotation with [r.T @ r] within [eps] of the identity moves the
    trace of a tensor with entries up to [bound] by at most
    [9 * bound * eps]. *)
Lemma rotation_trace (r t : mat3) (eps bound : Qc) :
  mwithin eps (mat_mul (transpose r) r) identity ->
  mbounded bound t ->
  within (qz 3 * (qz 3 * (bound * eps)))
    (trace (mat_mul (mat_mul r t) (transpose r))) (trace t).
Proof.
  intros Hclose Ht. unfold within. rewrite trace_cyclic.
  set (d := mat_mul (transpose r) r) in *.
  replace (trace (mat_mul t d) - trace t)
    with (sum3 (fun i => sum3 (fun k => mget t i k * (mget d k i - mget identity k i)))).
  - apply abs_sum3_le. intros i. apply abs_sum3_bound; [apply Ht|].
    intros k. apply Hclose.
  - clearbody d. destruct t as [[? ? ?] [? ? ?] [? ? ?]]. unfold_linalg. ring.
Qed.

Lemma bound_nonneg (bound : Qc) (t : mat3) : mbounded bound t -> 0 <= bound.
Proof.
  intros Ht. eapply Qcle_trans; [apply Qcabs.Qcabs_nonneg|exact (Ht I0 I0)].
Qed.

Lemma stress_engine_frame_symmetric `{Constants} (j : LammpsInteractive)
  (frame : list mat3) :
  stress_engine_frame j = Some frame -> Forall symmetric frame.
Proof.
  unfold stress_engine_frame. intros Hframe.
  destruct (extract_atom_id _ _) as [ids|]; [|discriminate]. cbn [mbind option_bind] in Hframe.
  destruct (take (seq 0 _) _) as [id_lst|]; [|discriminate]. cbn [mbind option_bind] in Hframe.
  destruct (extract_compute_st _ _) as [ss|]; [|discriminate]. cbn [mbind option_bind] in Hframe.
  destruct (take ss id_lst) as [reordered|]; [|discriminate]. cbn [mbind option_bind] in Hframe.
  destruct (mapM _ reordered) as [tensors|] eqn:Htensors; [|discriminate].
  cbn [mbind option_bind] in Hframe. injection Hframe as <-.
  apply mapM_Some_1 in Htensors. apply Forall_forall. intros t Ht.
  change (map ?f tensors) with (f <$> tensors) in Ht.
  apply list_elem_of_fmap in Ht as [t0 [-> Ht0]].
  apply list_elem_of_lookup_1 in Ht0 as [k Hk].
  destruct (Forall2_lookup_r _ _ _ _ _ Htensors Hk) as [row [_ Hrow]].
  apply mat_map_symmetric. eapply voigt_reading_symmetric. exact Hrow.
Qed.

(** X3. In exact arithmetic, every tensor the stress getter returns is
    symmetric, with or without rotation, and so is the matrix the pressure
    getter hands to the unit converter, whatever the stress getter does. *)
Theorem stress_and_pressure_symmetric `{UnitConverter} `{Constants}
  (j : LammpsInteractive) :
  from_option (Forall symmetric) True (interactive_stress_getter j).2
  /\ exists p : mat3,
      interactive_pressures_getter j = convert_matrix_to_pyiron_units "pressure" p
      /\ symmetric p.
Proof.
  split.
  - rewrite stress_getter_value. unfold stress_value.
    destruct (stress_engine_frame j) as [frame|] eqn:Hframe; [|exact I].
    cbn [mbind option_bind from_option].
    pose proof (stress_engine_frame_symmetric j frame Hframe) as Hsym.
    destruct (trace_is_not_3 (R (_prism j))); [|exact Hsym].
    rewrite einsum_rotation. apply Forall_forall. intros t Ht.
    change (map ?f frame) with (f <$> frame) in Ht.
    apply list_elem_of_fmap in Ht as [t0 [-> Ht0]].
    apply rotation_symmetric. eapply (proj1 (Forall_forall _ _) Hsym). exact Ht0.
  - eexists. split; [reflexivity|].
    assert (Hpp : symmetric (pressure_engine_frame j)) by reflexivity.
    destruct (trace_is_not_3 (transpose (R (_prism j)))); [|exact Hpp].
    rewrite transpose_involutive. apply rotation_symmetric. exact Hpp.
Qed.

(** X3 at the two atoms on the turned cube: the stress getter returns two
    tensors, and both are symmetric. *)
Lemma stress_and_pressure_symmetric_witness :
  Forall symmetric
    [M3 (V3 (qz 8) (qz (-10)) (qz (-12)))
        (V3 (qz (-10)) (qz 7) (qz 11))
        (V3 (qz (-12)) (qz 11) (qz 9));
     M3 (V3 (qz 2) (qz (-4)) (qz (-6)))
        (V3 (qz (-4)) (qz 1) (qz 5))
        (V3 (qz (-6)) (qz 5) (qz 3))]
  /\ exists p : mat3,
      @interactive_pressures_getter same_units swapped_job
      = @convert_matrix_to_pyiron_units same_units "pressure" p
      /\ symmetric p.
Proof.
  pose proof (@stress_and_pressure_symmetric same_units unit_constants swapped_job)
    as [Hstress Hpressure].
  split; [|exact Hpressure].
  assert (Hvalue : (@interactive_stress_getter unit_constants swapped_job).2
                   = Some [M3 (V3 (qz 8) (qz (-10)) (qz (-12)))
                              (V3 (qz (-10)) (qz 7) (qz 11))
                              (V3 (qz (-12)) (qz 11) (qz 9));
                           M3 (V3 (qz 2) (qz (-4)) (qz (-6)))
                              (V3 (qz (-4)) (qz 1) (qz 5))
                              (V3 (qz (-6)) (qz 5) (qz 3))])
    by by_evaluation.
  rewrite Hvalue in Hstress. exact Hstress.
Defined.

(** X4. Let [R.T @ R] agree with the identity within [eps] in every
    entry. Then the rotation of the getters moves traces by at most
    [9 * bound * eps]:
    - the matrix the pressure getter hands to the unit converter, against
      the engine's pressure matrix, when the entries of the latter are at
      most [bound] in absolute value;
    - every tensor the stress getter returns, against its engine-frame
      tensor, when the entries of the engine-frame tensors are at most
      [bound] in absolute value; the stress getter returns a value exactly
      when the engine frame can be read. *)
Theorem rotation_preserves_trace `{UnitConverter} `{Constants}
  (j : LammpsInteractive) (eps : Qc) :
  mwithin eps (mat_mul (transpose (R (_prism j))) (R (_prism j))) identity ->
  (forall bound : Qc,
      mbounded bound (pressure_engine_frame j) ->
      exists p : mat3,
        interactive_pressures_getter j = convert_matrix_to_pyiron_units "pressure" p
        /\ within (qz 3 * (qz 3 * (bound * eps)))
             (trace p) (trace (pressure_engine_frame j)))
  /\ (forall bound : Qc,
         from_option (Forall (mbounded bound)) True (stress_engine_frame j) ->
         option_Forall2
           (Forall2 (fun t t' => within (qz 3 * (qz 3 * (bound * eps)))
                                   (trace t) (trace t')))
           (interactive_stress_getter j).2 (stress_engine_frame j)).
Proof.
  intros Hclose.
  assert (Heps : 0 <= eps) by exact (within_nonneg _ _ _ (Hclose I0 I0)).
  assert (Hsame : forall (bound : Qc) (t : mat3),
             mbounded bound t ->
             within (qz 3 * (qz 3 * (bound * eps))) (trace t) (trace t)).
  { intros bound t Ht. apply within_refl.
    apply Qcmult_nonneg_nonneg; [discriminate|].
    apply Qcmult_nonneg_nonneg; [discriminate|].
    apply Qcmult_nonneg_nonneg; [exact (bound_nonneg _ _ Ht)|exact Heps]. }
  split.
  - intros bound Hpp. eexists. split; [reflexivity|].
    destruct (trace_is_not_3 (transpose (R (_prism j)))); [|apply Hsame; exact Hpp].
    rewrite transpose_involutive. apply rotation_trace; assumption.
  - intros bound Hframe. rewrite stress_getter_value. unfold stress_value.
    destruct (stress_engine_frame j) as [frame|]; [|constructor].
    cbn [mbind option_bind from_option] in *. constructor.
    destruct (trace_is_not_3 (R (_prism j))).
    + rewrite einsum_rotation. change (map ?f frame) with (f <$> frame).
      apply Forall2_fmap_l. apply Forall_Forall2_diag.
      eapply Forall_impl; [exact Hframe|].
      intros t Ht. unfold compose. exact (rotation_trace _ t eps bound Hclose Ht).
    + apply Forall_Forall2_diag. eapply Forall_impl; [exact Hframe|].
      intros t Ht. apply Hsame. exact Ht.
Qed.

(** X4 for the two atoms on the prism whose rotation is orthogonal only
    within [1e-32]; the entries of the stress reports are at most 12. *)
Lemma rotation_preserves_trace_witness :
  (exists p : mat3,
      @interactive_pressures_getter same_units rounded_job
      = @convert_matrix_to_pyiron_units same_units "pressure" p
      /\ within (qz 3 * (qz 3 * (1 * qfrac 1 (10 ^ 32))))
           (trace p) (trace (pressure_engine_frame rounded_job)))
  /\ option_Forall2
       (Forall2 (fun t t' => within (qz 3 * (qz 3 * (qz 12 * qfrac 1 (10 ^ 32))))
                               (trace t) (trace t')))
       (@interactive_stress_getter unit_constants rounded_job).2
       (@stress_engine_frame unit_constants rounded_job).
Proof.
  destruct (@rotation_preserves_trace same_units unit_constants rounded_job
              (qfrac 1 (10 ^ 32)))
    as [Hpressure Hstress].
  - intros [] []; by_evaluation.
  - split.
    + apply Hpressure. intros [] []; by_evaluation.
    + apply Hstress.
      assert (Hframe : @stress_engine_frame unit_constants rounded_job
                       = Some [M3 (V3 (qz 7) (qz 10) (qz 11))
                                  (V3 (qz 10) (qz 8) (qz 12))
                                  (V3 (qz 11) (qz 12) (qz 9));
                               M3 (V3 (qz 1) (qz 4) (qz 5))
                                  (V3 (qz 4) (qz 2) (qz 6))
                                  (V3 (qz 5) (qz 6) (qz 3))])
        by by_evaluation.
      rewrite Hframe. cbn [from_option].
      repeat constructor; intros [] []; by_evaluation.
Defined.

(* ===================================================================== *)
(** * Further properties of the force callback                            *)
(* ===================================================================== *)

Lemma broadcast_rows_length (n : nat) (forces rows : list vec3) :
  broadcast_rows n forces = Some rows -> length rows = n.
Proof.
  unfold broadcast_rows. destruct (Nat.eqb_spec (length forces) n) as [Heq|Hne].
  - intros [= <-]. exact Heq.
  - destruct forces as [|v [|? ?]]; try discriminate.
    intros [= <-]. apply length_replicate.
Qed.

(** One call of [fix_external], given the rows the user function's result
    is broadcast to. *)
Lemma fix_external_given_forces
  (function : list vec3 -> Z -> nat -> list vec3)
  (ntimestep : Z) (nlocal : nat) (tag : list Z) (x fext xs forces : list vec3) :
  length fext = length tag ->
  take x (argsort tag) = Some xs ->
  broadcast_rows (length (argsort tag)) (function xs ntimestep nlocal) = Some forces ->
  exists buf : list vec3,
    length buf = length tag
    /\ forces ≡ₚ buf
    /\ fix_external function ntimestep nlocal tag x fext
       = Some (map (fun v => vsub v (mean_axis0 buf)) buf).
Proof.
  intros Hfext Hxs Hbroadcast.
  set (tags := argsort tag) in *.
  assert (Htl : length tags = length tag) by apply argsort_length.
  assert (Hbound : Forall (fun i => (i < length tag)%nat) tags)
    by apply argsort_in_range.
  assert (Hfl : length forces = length tag).
  { rewrite (broadcast_rows_length _ _ _ Hbroadcast). exact Htl. }
  set (zeros := replicate (length fext) vzero).
  assert (Hbz : Forall (fun i => (i < length zeros)%nat) tags).
  { unfold zeros. rewrite length_replicate, Hfext. exact Hbound. }
  destruct (take_Some zeros tags Hbz) as [old Hold].
  assert (Hold' : old = replicate (length forces) vzero).
  { rewrite (take_zeros _ _ _ Hold), Htl, Hfl. reflexivity. }
  set (buf := assign_rows zeros tags forces).
  assert (Hbl : length buf = length tag).
  { unfold buf. rewrite assign_rows_length. unfold zeros.
    rewrite length_replicate. exact Hfext. }
  assert (Hlookup : forall k i, tags !! k = Some i -> buf !! i = forces !! k).
  { intros k i Hk. apply assign_rows_lookup; try assumption.
    - apply argsort_NoDup.
    - rewrite Hfl, Htl. reflexivity. }
  exists buf. split; [exact Hbl|]. split.
  - apply (take_all_perm buf forces tags).
    + rewrite Hbl. apply argsort_perm_seq.
    + apply take_from_lookups; [rewrite Hfl, Htl; reflexivity|exact Hlookup].
  - unfold fix_external. fold tags. rewrite fill_zero. fold zeros.
    rewrite Hxs. cbn [mbind option_bind]. rewrite Hold. cbn [mbind option_bind].
    rewrite Hbroadcast. cbn [mbind option_bind].
    rewrite Hold', zip_with_vadd_zeros. reflexivity.
Qed.

Lemma take_x_Some (tag : list Z) (x : list vec3) :
  length x = length tag ->
  exists xs, take x (argsort tag) = Some xs /\ length xs = length tag.
Proof.
  intros Hx.
  assert (Hbx : Forall (fun i => (i < length x)%nat) (argsort tag))
    by (rewrite Hx; apply argsort_in_range).
  destruct (take_Some x _ Hbx) as [xs Hxs]. exists xs. split; [exact Hxs|].
  rewrite (take_length _ _ _ Hxs). apply argsort_length.
Qed.

Lemma sum_axis0_replicate (n : nat) (c : vec3) :
  sum_axis0 (replicate n c) = vscale (qz (Z.of_nat n)) c.
Proof.
  induction n as [|n IH].
  - change (qz (Z.of_nat 0)) with (Q2Qc 0). cbn [replicate sum_axis0 fold_right].
    linalg.
  - cbn [replicate sum_axis0 fold_right]. fold (sum_axis0 (replicate n c)).
    rewrite IH, Nat2Z.inj_succ, <- Z.add_1_r, qz_add.
    change (qz 1) with (Q2Qc 1). linalg.
Qed.

Lemma mean_axis0_replicate (n : nat) (c : vec3) :
  n <> 0%nat -> mean_axis0 (replicate n c) = c.
Proof.
  intros Hn. unfold mean_axis0. rewrite sum_axis0_replicate, length_replicate.
  assert (Hq : qz (Z.of_nat n) <> 0) by (apply qz_nonzero; lia).
  destruct c as [cx cy cz]. unfold_linalg. f_equal; field; exact Hq.
Qed.

Lemma map_const_replicate {A B : Type} (c : B) (l : list A) :
  map (fun _ => c) l = replicate (length l) c.
Proof. induction l as [|a l IH]; [reflexivity|]. cbn. rewrite IH. reflexivity. Qed.

Lemma vsub_diag (c : vec3) : vsub c c = vzero.
Proof. linalg. Qed.

Lemma debias_replicate (n : nat) (c : vec3) :
  map (fun v => vsub v c) (replicate n c) = replicate n vzero.
Proof.
  induction n as [|n IH]; [reflexivity|].
  cbn [replicate map]. rewrite IH, vsub_diag. reflexivity.
Qed.

(** X5. If the user function returns the same force for every atom, as
    one row per atom or as a single row that numpy broadcasts, then on
    return every row of the (non-empty) buffer is zero: a uniform force is
    cancelled completely. *)
Theorem fix_external_cancels_uniform_force
  (function : list vec3 -> Z -> nat -> list vec3) (c : vec3)
  (ntimestep : Z) (nlocal : nat) (tag : list Z) (x fext : list vec3) :
  fext <> [] ->
  length x = length tag ->
  length fext = length tag ->
  (forall xs : list vec3,
      length xs = length tag ->
      function xs ntimestep nlocal = replicate (length tag) c
      \/ function xs ntimestep nlocal = [c]) ->
  fix_external function ntimestep nlocal tag x fext
  = Some (replicate (length fext) vzero).
Proof.
  intros Hne Hx Hfext Hfun.
  destruct (take_x_Some tag x Hx) as [xs [Hxs Hxl]].
  assert (Hn : length tag <> 0%nat).
  { intros Hz. apply Hne. apply length_zero_iff_nil. lia. }
  assert (Hbroadcast : broadcast_rows (length (argsort tag)) (function xs ntimestep nlocal)
                       = Some (replicate (length tag) c)).
  { rewrite argsort_length. unfold broadcast_rows.
    destruct (Hfun xs Hxl) as [-> | ->].
    - rewrite length_replicate, Nat.eqb_refl. reflexivity.
    - cbn [length]. destruct (Nat.eqb_spec 1 (length tag)) as [<-|_]; reflexivity. }
  destruct (fix_external_given_forces function ntimestep nlocal tag x fext xs _
              Hfext Hxs Hbroadcast) as [buf [Hbl [Hperm Hrun]]].
  apply replicate_Permutation in Hperm. subst buf.
  rewrite Hrun, mean_axis0_replicate by exact Hn.
  rewrite Hfext, debias_replicate. reflexivity.
Qed.

(** X5 for two atoms held in the order ID 2, ID 1. *)
Lemma fix_external_cancels_uniform_force_witness :
  fix_external constant_force 0 2 [2%Z; 1%Z] [V3 1 0 0; V3 0 0 0]
    [V3 (qz 5) (qz 5) (qz 5); V3 (qz 7) (qz 7) (qz 7)]
  = Some (replicate 2 vzero).
Proof.
  apply (fix_external_cancels_uniform_force constant_force (V3 1 (qz 2) (qz 3))).
  - discriminate.
  - reflexivity.
  - reflexivity.
  - intros xs Hxs. left. unfold constant_force.
    rewrite map_const_replicate, Hxs. reflexivity.
Defined.

(** X6. If the user function returns a number of rows that is neither
    the number of atoms nor one, the call raises. *)
Theorem fix_external_raises_on_row_count
  (function : list vec3 -> Z -> nat -> list vec3)
  (ntimestep : Z) (nlocal : nat) (tag : list Z) (x fext : list vec3) :
  length x = length tag ->
  length fext = length tag ->
  (forall xs : list vec3,
      length xs = length tag ->
      length (function xs ntimestep nlocal) <> length tag
      /\ length (function xs ntimestep nlocal) <> 1%nat) ->
  fix_external function ntimestep nlocal tag x fext = None.
Proof.
  intros Hx Hfext Hfun.
  destruct (take_x_Some tag x Hx) as [xs [Hxs Hxl]].
  destruct (Hfun xs Hxl) as [Hn H1].
  unfold fix_external. rewrite Hxs. cbn [mbind option_bind].
  destruct (take (map _ fext) (argsort tag)) as [old|]; [|reflexivity].
  cbn [mbind option_bind].
  unfold broadcast_rows. rewrite argsort_length.
  destruct (Nat.eqb_spec (length (function xs ntimestep nlocal)) (length tag));
    [contradiction|].
  destruct (function xs ntimestep nlocal) as [|v [|? ?]]; try reflexivity.
  exfalso. apply H1. reflexivity.
Qed.

(** X6 for a user function that returns no row at all. *)
Lemma fix_external_raises_on_row_count_witness :
  fix_external (fun _ _ _ => []) 0 2 [2%Z; 1%Z] [V3 1 0 0; V3 0 0 0]
    [V3 (qz 5) (qz 5) (qz 5); V3 (qz 7) (qz 7) (qz 7)]
  = None.
Proof.
  apply fix_external_raises_on_row_count.
  - reflexivity.
  - reflexivity.
  - intros xs _. cbn. split; discriminate.
Defined.

(** X7. The forces the buffer held on entry never show in the result: two
    calls that differ only in the content of the buffer return the same
    rows. *)
Theorem fix_external_ignores_old_forces
  (function : list vec3 -> Z -> nat -> list vec3)
  (ntimestep : Z) (nlocal : nat) (tag : list Z) (x fext fext' : list vec3) :
  length fext = length fext' ->
  fix_external function ntimestep nlocal tag x fext
  = fix_external function ntimestep nlocal tag x fext'.
Proof.
  intros Hlen. unfold fix_external. rewrite !fill_zero, Hlen. reflexivity.
Qed.

(** X7 for two buffers of two rows. *)
Lemma fix_external_ignores_old_forces_witness :
  fix_external position_force 0 2 [2%Z; 1%Z] [V3 1 0 0; V3 0 0 0]
    [V3 (qz 5) (qz 5) (qz 5); V3 (qz 7) (qz 7) (qz 7)]
  = fix_external position_force 0 2 [2%Z; 1%Z] [V3 1 0 0; V3 0 0 0]
      [vzero; vzero].
Proof. apply fix_external_ignores_old_forces. reflexivity. Defined.

(* ===================================================================== *)
(** * Further properties of closing                                       *)
(* ===================================================================== *)

Lemma h5_set_same (group key : string) (v : list pyvalue)
  (o : gmap string (gmap string (list pyvalue))) :
  h5_get group key o = Some v -> h5_set group key v o = o.
Proof.
  unfold h5_get, h5_set. intros Hget.
  destruct (o !! group) as [g|] eqn:Hg; [|discriminate]. cbn in Hget |- *.
  rewrite (insert_id g key v Hget). apply insert_id. exact Hg.
Qed.

Lemma copy_already_done (keys : list string)
  (o : gmap string (gmap string (list pyvalue))) :
  (forall key v, key ∈ keys -> h5_get "interactive" key o = Some v ->
                 h5_get "generic" key o = Some v) ->
  copy_interactive_to_generic keys o = o.
Proof.
  unfold copy_interactive_to_generic.
  induction keys as [|k keys IH]; intros Hdone; [reflexivity|].
  cbn [foldl]. destruct (h5_get "interactive" k o) as [v|] eqn:Hk.
  - rewrite h5_set_same by (apply Hdone; [apply list_elem_of_here|exact Hk]).
    apply IH. intros key v' Hin. apply Hdone. apply list_elem_of_further. exact Hin.
  - apply IH. intros key v' Hin. apply Hdone. apply list_elem_of_further. exact Hin.
Qed.

(** X9. The copy that [interactive_close] makes is idempotent: running
    the loop over the nodes of "interactive" a second time leaves the
    store exactly as the first run left it. *)
Theorem copy_interactive_to_generic_idempotent
  (o : gmap string (gmap string (list pyvalue))) (g : gmap string (list pyvalue)) :
  o !! "interactive" = Some g ->
  copy_interactive_to_generic (list_nodes g)
    (copy_interactive_to_generic (list_nodes g) o)
  = copy_interactive_to_generic (list_nodes g) o.
Proof.
  intros Hg.
  destruct (copy_interactive_to_generic_spec (list_nodes g) o g Hg) as [Hother Hgeneric].
  apply copy_already_done. intros key v Hin Hv.
  unfold h5_get in Hv at 1. rewrite Hother, Hg in Hv by discriminate. cbn in Hv.
  rewrite Hgeneric, decide_True, Hv by exact Hin. reflexivity.
Qed.

(** X9 at the sample store. *)
Lemma copy_interactive_to_generic_idempotent_witness :
  copy_interactive_to_generic
    (list_nodes {[ "energy_pot" := [PyFloat (qz 1)]; "steps" := [PyFloat (qz 2)] ]})
    (copy_interactive_to_generic
       (list_nodes {[ "energy_pot" := [PyFloat (qz 1)]; "steps" := [PyFloat (qz 2)] ]})
       sample_output)
  = copy_interactive_to_generic
      (list_nodes {[ "energy_pot" := [PyFloat (qz 1)]; "steps" := [PyFloat (qz 2)] ]})
      sample_output.
Proof.
  apply copy_interactive_to_generic_idempotent. vm_compute. reflexivity.
Defined.

(* ===================================================================== *)
(** * Properties of sending the potential                                 *)
(* ===================================================================== *)

(** The commands one potential line gives rise to. *)
Lemma send_potential_line_calls (style_full : bool)
  (potential_lst : list (string * string)) (j : LammpsInteractive) (line : string) :
  calls (_interactive_library (send_potential_line style_full potential_lst j line))
  = (calls (_interactive_library j)
     ++ (if style_full
            && (contains "kspace" (substitute_paths potential_lst line)
                || contains "pair" (substitute_paths potential_lst line))
         then []
         else [Command (first_line (substitute_paths potential_lst line))])
     ++ (if (length potential_lst =? 0)%nat
         then [Command (first_line (substitute_paths potential_lst line))]
         else []))%list.
Proof.
  unfold send_potential_line.
  destruct (style_full && _); destruct (length potential_lst =? 0)%nat; cbn [negb];
    rewrite ?lib_command_calls, ?app_nil_r, <- ?app_assoc; reflexivity.
Qed.

Lemma send_potential_lines_calls (style_full : bool)
  (potential_lst : list (string * string)) (lines : list string)
  (j : LammpsInteractive) :
  calls (_interactive_library (foldl (send_potential_line style_full potential_lst) j lines))
  = (calls (_interactive_library j)
     ++ flat_map
          (fun line =>
             (if style_full
                 && (contains "kspace" (substitute_paths potential_lst line)
                     || contains "pair" (substitute_paths potential_lst line))
              then []
              else [Command (first_line (substitute_paths potential_lst line))])
             ++ (if (length potential_lst =? 0)%nat
                 then [Command (first_line (substitute_paths potential_lst line))]
                 else []))
          lines)%list.
Proof.
  revert j. induction lines as [|line lines IH]; intros j.
  - cbn. rewrite app_nil_r. reflexivity.
  - cbn [foldl flat_map]. rewrite IH, send_potential_line_calls, <- !app_assoc.
    reflexivity.
Qed.

(** X10. If a potential file is missing on disk,
    [_interactive_set_potential] raises [ValueError] for the first missing
    file in the order of the list, whatever the other arguments: no line
    of the potential is sent. *)
Theorem set_potential_missing_file `{WaterSetter}
  (path_exists : string -> bool) (found : list string) (missing : string)
  (rest : list string) (atom_style : string) (string_lst : list string)
  (water_bonds : bool) (j : LammpsInteractive) :
  Forall (fun potential => path_exists potential = true) found ->
  path_exists missing = false ->
  _interactive_set_potential path_exists (Some (found ++ missing :: rest)%list)
    atom_style string_lst water_bonds j
  = ValueError "Potential not found: " missing.
Proof.
  intros Hfound Hmissing. unfold _interactive_set_potential.
  change (default [] (Some (found ++ missing :: rest)%list))
    with (found ++ missing :: rest)%list.
  replace (potential_pairs path_exists (found ++ missing :: rest)%list)
    with (@ValueError (list (string * string)) "Potential not found: " missing);
    [reflexivity|].
  induction Hfound as [|potential found Hp _ IH]; cbn [app potential_pairs].
  - rewrite Hmissing. reflexivity.
  - rewrite Hp, <- IH. reflexivity.
Qed.

(** X10 for a list whose second file is missing. *)
Lemma set_potential_missing_file_witness :
  @_interactive_set_potential no_water_setter
    (fun potential => bool_decide (potential = "/pot/Al.eam"))
    (Some ["/pot/Al.eam"; "/pot/Ni.eam"; "/pot/H.eam"])
    "atomic" ["pair_style eam"; "pair_coeff * * Al.eam Al"] false turned_job
  = ValueError "Potential not found: " "/pot/Ni.eam".
Proof.
  apply (@set_potential_missing_file no_water_setter _ ["/pot/Al.eam"] "/pot/Ni.eam"
           ["/pot/H.eam"]).
  - repeat constructor.
  - reflexivity.
Defined.

(** X11. When the potential names no file ([files] is [None] or empty),
    every line of the potential is sent to the engine twice in a row; for
    atom style "full", a line that mentions "kspace" or "pair" is sent
    once. *)
Theorem set_potential_without_files_sends_twice `{WaterSetter}
  (path_exists : string -> bool) (files : option (list string))
  (atom_style : string) (string_lst : list string) (water_bonds : bool)
  (j : LammpsInteractive) :
  default [] files = [] ->
  exists j' : LammpsInteractive,
    _interactive_set_potential path_exists files atom_style string_lst water_bonds j
    = Returned (if bool_decide (atom_style = "full") && water_bonds
                then _interactive_water_setter j' else j')
    /\ calls (_interactive_library j')
       = (calls (_interactive_library j)
          ++ flat_map
               (fun line =>
                  if bool_decide (atom_style = "full")
                     && (contains "kspace" line || contains "pair" line)
                  then [Command (first_line line)]
                  else [Command (first_line line); Command (first_line line)])
               string_lst)%list.
Proof.
  intros Hfiles. unfold _interactive_set_potential. rewrite Hfiles.
  cbn [potential_pairs].
  exists (foldl (send_potential_line (bool_decide (atom_style = "full")) []) j string_lst).
  split.
  - destruct (bool_decide (atom_style = "full") && water_bonds); reflexivity.
  - rewrite send_potential_lines_calls. f_equal. apply flat_map_ext. intros line.
    cbn [substitute_paths foldl length Nat.eqb].
    destruct (bool_decide (atom_style = "full") && _); reflexivity.
Qed.

(** X11 for a two-line potential without files. *)
Lemma set_potential_without_files_sends_twice_witness :
  exists j' : LammpsInteractive,
    @_interactive_set_potential no_water_setter (fun _ => true) None "atomic"
      ["pair_style lj/cut 2.5"; "pair_coeff * * 1.0 1.0"] false turned_job
    = Returned (if bool_decide ("atomic" = "full") && false
                then @_interactive_water_setter no_water_setter j' else j')
    /\ calls (_interactive_library j')
       = (calls (_interactive_library turned_job)
          ++ flat_map
               (fun line =>
                  if bool_decide ("atomic" = "full")
                     && (contains "kspace" line || contains "pair" line)
                  then [Command (first_line line)]
                  else [Command (first_line line); Command (first_line line)])
               ["pair_style lj/cut 2.5"; "pair_coeff * * 1.0 1.0"])%list.
Proof.
  apply (@set_potential_without_files_sends_twice no_water_setter). reflexivity.
Defined.

(** X12. When the potential names at least one file and all files exist,
    a line is sent at most once, with the file names in it replaced by
    the full paths; for atom style "full", the lines that mention
    "kspace" or "pair" after the replacement are not sent. *)
Theorem set_potential_with_files_sends_once `{WaterSetter}
  (path_exists : string -> bool) (potential : string) (files : list string)
  (atom_style : string) (string_lst : list string) (water_bonds : bool)
  (j : LammpsInteractive) :
  Forall (fun file => path_exists file = true) (potential :: files) ->
  exists (potential_lst : list (string * string)) (j' : LammpsInteractive),
    potential_lst = map (fun file => (basename file, file)) (potential :: files)
    /\ _interactive_set_potential path_exists (Some (potential :: files))
         atom_style string_lst water_bonds j
       = Returned (if bool_decide (atom_style = "full") && water_bonds
                   then _interactive_water_setter j' else j')
    /\ calls (_interactive_library j')
       = (calls (_interactive_library j)
          ++ map (fun line => Command (first_line (substitute_paths potential_lst line)))
               (List.filter
                  (fun line =>
                     negb (bool_decide (atom_style = "full")
                           && (contains "kspace" (substitute_paths potential_lst line)
                               || contains "pair" (substitute_paths potential_lst line))))
                  string_lst))%list.
Proof.
  intros Hexist.
  assert (Hpairs : forall fs, Forall (fun file => path_exists file = true) fs ->
             potential_pairs path_exists fs
             = Returned (map (fun file => (basename file, file)) fs)).
  { intros fs Hfs. induction Hfs as [|f fs Hf _ IH]; [reflexivity|].
    cbn [potential_pairs map]. rewrite Hf, IH. reflexivity. }
  eexists. eexists. split; [reflexivity|].
  unfold _interactive_set_potential.
  change (default [] (Some (potential :: files))) with (potential :: files).
  rewrite (Hpairs _ Hexist). split.
  - destruct (bool_decide (atom_style = "full") && water_bonds); reflexivity.
  - rewrite send_potential_lines_calls. f_equal.
    set (pl := map (fun file => (basename file, file)) (potential :: files)).
    assert (Hlen : (length pl =? 0)%nat = false) by reflexivity.
    clearbody pl. rewrite Hlen.
    induction string_lst as [|line lines IH]; [reflexivity|].
    cbn [flat_map List.filter map]. rewrite IH.
    destruct (bool_decide (atom_style = "full") && _); reflexivity.
Qed.

(** X12 for an EAM potential with one file. *)
Lemma set_potential_with_files_sends_once_witness :
  exists (potential_lst : list (string * string)) (j' : LammpsInteractive),
    potential_lst = map (fun file => (basename file, file)) ["/pot/Al.eam"]
    /\ @_interactive_set_potential no_water_setter (fun _ => true)
         (Some ["/pot/Al.eam"]) "full"
         ["pair_style eam"; "pair_coeff * * Al.eam Al"; "mass 1 26.98"] true turned_job
       = Returned (if bool_decide ("full" = "full") && true
                   then @_interactive_water_setter no_water_setter j' else j')
    /\ calls (_interactive_library j')
       = (calls (_interactive_library turned_job)
          ++ map (fun line => Command (first_line (substitute_paths potential_lst line)))
               (List.filter
                  (fun line =>
                     negb (bool_decide ("full" = "full")
                           && (contains "kspace" (substitute_paths potential_lst line)
                               || contains "pair" (substitute_paths potential_lst line))))
                  ["pair_style eam"; "pair_coeff * * Al.eam Al"; "mass 1 26.98"]))%list.
Proof.
  apply (@set_potential_with_files_sends_once no_water_setter (fun _ => true)).
  repeat constructor.
Defined.

(** The two cases evaluated. *)
Example set_potential_samples :
  (match @_interactive_set_potential no_water_setter (fun _ => true) None "atomic"
           ["pair_style lj/cut 2.5"; "pair_coeff * * 1.0 1.0"] false turned_job with
   | Returned j' => calls (_interactive_library j')
   | ValueError _ _ => []
   end
   = [Command "pair_style lj/cut 2.5"; Command "pair_style lj/cut 2.5";
      Command "pair_coeff * * 1.0 1.0"; Command "pair_coeff * * 1.0 1.0"])
  /\ (match @_interactive_set_potential no_water_setter (fun _ => true)
              (Some ["/pot/Al.eam"]) "atomic"
              ["pair_style eam"; "pair_coeff * * Al.eam Al"] false turned_job with
      | Returned j' => calls (_interactive_library j')
      | ValueError _ _ => []
      end
      = [Command "pair_style eam"; Command "pair_coeff * * /pot/Al.eam Al"]).
Proof. split; by_evaluation. Qed.

(* ===================================================================== *)
(** * Properties of the atom types                                        *)
(* ===================================================================== *)

Lemma index_of_None (s : string) (l : list string) : index_of s l = None <-> s ∉ l.
Proof.
  induction l as [|x l IH]; cbn [index_of].
  - split; [intros _; apply not_elem_of_nil|reflexivity].
  - destruct (decide (x = s)) as [->|Hne].
    + split; [discriminate|]. intros Hnin. exfalso. apply Hnin, list_elem_of_here.
    + rewrite not_elem_of_cons. destruct (index_of s l); cbn.
      * split; [discriminate|]. intros [_ Hnin]. exfalso. apply IH in Hnin. discriminate.
      * split; [|reflexivity]. intros _. split; [congruence|]. apply IH. reflexivity.
Qed.

Lemma index_of_Some (s : string) (l : list string) (k : nat) :
  index_of s l = Some k -> l !! k = Some s.
Proof.
  revert k. induction l as [|x l IH]; intros k; cbn [index_of]; [discriminate|].
  destruct (decide (x = s)) as [->|Hne].
  - intros [= <-]. reflexivity.
  - destruct (index_of s l) as [k'|]; [|discriminate]. cbn. intros [= <-].
    cbn. apply IH. reflexivity.
Qed.

Lemma index_of_lookup (s : string) (l : list string) (k : nat) :
  NoDup l -> l !! k = Some s -> index_of s l = Some k.
Proof.
  intros Hnd Hk. destruct (index_of s l) as [k'|] eqn:Hidx.
  - apply index_of_Some in Hidx. f_equal. eapply NoDup_lookup; eassumption.
  - apply index_of_None in Hidx. exfalso. apply Hidx.
    eapply list_elem_of_lookup_2. exact Hk.
Qed.

Section ElementTypeFacts.
Context {El : Type} `{EqDecision El}.

(** What the dict holds once the loop is over: for the species object at
    position [i], whose symbol is [sym], the type is one more than the
    position of [sym] in the potential's list, and what it was before the
    loop if [sym] is not in that list. *)
Lemma build_el_dict_lookup (el_eam_lst el_struct_lst : list string)
  (el_obj_lst : list El) :
  NoDup el_eam_lst -> NoDup el_struct_lst -> NoDup el_obj_lst ->
  length el_obj_lst = length el_struct_lst ->
  forall (id_eam : nat) (el_dict : list (El * nat)),
  exists d : list (El * nat),
    build_el_dict id_eam el_eam_lst el_struct_lst el_obj_lst el_dict = Some d
    /\ forall (i : nat) (sym : string) (el : El),
         el_struct_lst !! i = Some sym -> el_obj_lst !! i = Some el ->
         dict_get el d
         = match index_of sym el_eam_lst with
           | Some k => Some (id_eam + k + 1)%nat
           | None => dict_get el el_dict
           end.
Proof.
  intros Heam Hstruct Hobj Hlen.
  induction el_eam_lst as [|e rest IH]; intros id_eam el_dict.
  - exists el_dict. split; [reflexivity|]. reflexivity.
  - apply NoDup_cons in Heam as [He Hrest]. specialize (IH Hrest).
    cbn [build_el_dict].
    destruct (bool_decide (e ∈ el_struct_lst)) eqn:Hin.
    + apply bool_decide_eq_true in Hin.
      apply list_elem_of_lookup_1 in Hin as [i0 Hi0].
      rewrite (index_of_lookup _ _ _ Hstruct Hi0). cbn [mbind option_bind].
      assert (Hlt : (i0 < length el_obj_lst)%nat).
      { rewrite Hlen. eapply lookup_lt_Some. exact Hi0. }
      apply lookup_lt_is_Some in Hlt as [el0 Hel0]. rewrite Hel0.
      destruct (IH (S id_eam) ((el0, (id_eam + 1)%nat) :: el_dict)) as [d [Hd Hget]].
      exists d. split; [exact Hd|].
      intros i sym el Hsym Hel. rewrite (Hget i sym el Hsym Hel).
      cbn [index_of dict_get]. destruct (decide (e = sym)) as [->|Hne].
      * assert (Hnone : index_of sym rest = None) by (apply index_of_None; exact He).
        rewrite Hnone.
        assert (i = i0) by (apply (NoDup_lookup _ _ _ _ Hstruct Hsym Hi0)). subst i.
        rewrite Hel in Hel0. injection Hel0 as ->.
        rewrite decide_True by reflexivity. f_equal. lia.
      * destruct (index_of sym rest) as [k|]; cbn; [f_equal; lia|].
        rewrite decide_False; [reflexivity|].
        intros Heq. subst el0. apply Hne.
        assert (i0 = i) by (apply (NoDup_lookup _ _ _ _ Hobj Hel0 Hel)). subst i0.
        congruence.
    + apply bool_decide_eq_false in Hin.
      destruct (IH (S id_eam) el_dict) as [d [Hd Hget]].
      exists d. split; [exact Hd|].
      intros i sym el Hsym Hel. rewrite (Hget i sym el Hsym Hel).
      cbn [index_of]. destruct (decide (e = sym)) as [->|Hne].
      * exfalso. apply Hin. eapply list_elem_of_lookup_2. exact Hsym.
      * destruct (index_of sym rest) as [k|]; cbn; [f_equal; lia|reflexivity].
Qed.

(** X13. Let the species symbols, the species objects and the
    potential's elements each be free of repetitions, with one object per
    symbol, the symbol of the object at position [i] of the species
    objects being the entry at position [i] of the species symbols. The
    list [species], which the atoms' indices refer to, may list the
    objects in another order. If the species object of every atom is
    among the species objects and its symbol occurs in the potential's
    element list, the setter computes one type per atom, and the type of
    an atom is one more than the position of its symbol in the potential's
    list. *)
Theorem indices_setter_types_by_potential_order
  (el_struct_lst : list string) (el_obj_lst species : list El)
  (el_eam_lst : list string) (indices : list nat) :
  NoDup el_eam_lst -> NoDup el_struct_lst -> NoDup el_obj_lst ->
  length el_obj_lst = length el_struct_lst ->
  Forall (fun s => exists (el : El) (i : nat) (sym : string),
                     species !! s = Some el /\ el_obj_lst !! i = Some el
                     /\ el_struct_lst !! i = Some sym /\ sym ∈ el_eam_lst) indices ->
  exists types : list nat,
    indices_setter_types el_struct_lst el_obj_lst species el_eam_lst indices
    = Some types
    /\ length types = length indices
    /\ forall (a s i k : nat) (el : El) (sym : string),
         indices !! a = Some s -> species !! s = Some el ->
         el_obj_lst !! i = Some el -> el_struct_lst !! i = Some sym ->
         el_eam_lst !! k = Some sym -> types !! a = Some (S k).
Proof.
  intros Heam Hstruct Hobj Hlen Hall.
  destruct (build_el_dict_lookup el_eam_lst el_struct_lst el_obj_lst
              Heam Hstruct Hobj Hlen 0%nat []) as [d [Hd Hget]].
  unfold indices_setter_types. rewrite Hd. cbn [mbind option_bind].
  assert (Hone : forall s el i sym,
             species !! s = Some el -> el_obj_lst !! i = Some el ->
             el_struct_lst !! i = Some sym -> sym ∈ el_eam_lst ->
             exists k, el_eam_lst !! k = Some sym
                       /\ species !! s ≫= (fun e => dict_get e d) = Some (S k)).
  { intros s el i sym Hs Hel Hsym Hin. apply list_elem_of_lookup_1 in Hin as [k Hk].
    exists k. split; [exact Hk|].
    rewrite Hs. cbn [mbind option_bind].
    rewrite (Hget i sym el Hsym Hel), (index_of_lookup _ _ _ Heam Hk).
    f_equal. lia. }
  assert (Hsome : is_Some (mapM (fun s => species !! s ≫= (fun e => dict_get e d))
                             indices)).
  { apply mapM_is_Some_2. eapply Forall_impl; [exact Hall|].
    intros s [el [i [sym [Hs [Hel [Hsym Hin]]]]]]. unfold compose.
    destruct (Hone s el i sym Hs Hel Hsym Hin) as [k [_ ->]]. eexists. reflexivity. }
  destruct Hsome as [types Htypes]. exists types. split; [exact Htypes|].
  split; [symmetry; eapply length_mapM; exact Htypes|].
  intros a s i k el sym Ha Hs Hel Hsym Hk.
  apply mapM_Some_1 in Htypes.
  destruct (Forall2_lookup_l _ _ _ _ _ Htypes Ha) as [t [Ht Hti]].
  rewrite Ht. rewrite <- Hti.
  destruct (Hone s el i sym Hs Hel Hsym) as [k' [Hk' ->]].
  - eapply list_elem_of_lookup_2. exact Hk.
  - f_equal. f_equal. apply (NoDup_lookup _ _ _ _ Heam Hk' Hk).
Qed.

(** X14. Under the same conditions on the lists, if the symbol of some
    atom's species object does not occur in the potential's element list,
    the setter raises (the lookup in [el_dict] fails) and nothing is
    scattered. *)
Theorem indices_setter_raises_on_unknown_element
  (el_struct_lst : list string) (el_obj_lst species : list El)
  (el_eam_lst : list string) (indices : list nat) (a s i : nat) (el : El)
  (sym : string) (j : LammpsInteractive) :
  NoDup el_eam_lst -> NoDup el_struct_lst -> NoDup el_obj_lst ->
  length el_obj_lst = length el_struct_lst ->
  indices !! a = Some s -> species !! s = Some el ->
  el_obj_lst !! i = Some el -> el_struct_lst !! i = Some sym -> sym ∉ el_eam_lst ->
  interactive_indices_setter el_struct_lst el_obj_lst species el_eam_lst indices j
  = None.
Proof.
  intros Heam Hstruct Hobj Hlen Ha Hs Hel Hsym Hnin.
  destruct (build_el_dict_lookup el_eam_lst el_struct_lst el_obj_lst
              Heam Hstruct Hobj Hlen 0%nat []) as [d [Hd Hget]].
  unfold interactive_indices_setter, indices_setter_types.
  rewrite Hd. cbn [mbind option_bind].
  replace (mapM (fun s => species !! s ≫= (fun e => dict_get e d)) indices)
    with (@None (list nat)); [reflexivity|].
  symmetry. apply mapM_None_2. apply Exists_exists. exists s.
  split; [eapply list_elem_of_lookup_2; exact Ha|].
  rewrite Hs. cbn [mbind option_bind].
  rewrite (Hget i sym el Hsym Hel).
  apply index_of_None in Hnin. rewrite Hnin. reflexivity.
Qed.

End ElementTypeFacts.

(** X13 for a structure of iron and aluminium atoms (iron first, so that
    [species] is Fe, Al, while the species symbols and objects are sorted:
    Al, Fe) and a potential for Al, Ni, Fe. *)
Lemma indices_setter_types_by_potential_order_witness :
  exists types : list nat,
    indices_setter_types ["Al"; "Fe"] [13%Z; 26%Z] [26%Z; 13%Z] ["Al"; "Ni"; "Fe"]
      [0; 1; 1; 0]%nat
    = Some types
    /\ length types = length [0; 1; 1; 0]%nat
    /\ forall (a s i k : nat) (el : Z) (sym : string),
         [0; 1; 1; 0]%nat !! a = Some s -> [26%Z; 13%Z] !! s = Some el ->
         [13%Z; 26%Z] !! i = Some el -> ["Al"; "Fe"] !! i = Some sym ->
         ["Al"; "Ni"; "Fe"] !! k = Some sym -> types !! a = Some (S k).
Proof.
  apply (indices_setter_types_by_potential_order (El := Z)).
  - by_evaluation.
  - by_evaluation.
  - by_evaluation.
  - reflexivity.
  - repeat constructor.
    + exists 26%Z, 1%nat, "Fe". repeat split; by_evaluation.
    + exists 13%Z, 0%nat, "Al". repeat split; by_evaluation.
    + exists 13%Z, 0%nat, "Al". repeat split; by_evaluation.
    + exists 26%Z, 1%nat, "Fe". repeat split; by_evaluation.
Defined.

(** X14 for the same structure with a potential for Al and Ni: the first
    atom is iron. *)
Lemma indices_setter_raises_on_unknown_element_witness :
  interactive_indices_setter ["Al"; "Fe"] [13%Z; 26%Z] [26%Z; 13%Z] ["Al"; "Ni"]
    [0; 1; 1; 0]%nat turned_job
  = None.
Proof.
  apply (indices_setter_raises_on_unknown_element (El := Z)
           ["Al"; "Fe"] [13%Z; 26%Z] [26%Z; 13%Z] ["Al"; "Ni"] [0; 1; 1; 0]%nat
           0%nat 0%nat 1%nat 26%Z "Fe").
  - by_evaluation.
  - by_evaluation.
  - by_evaluation.
  - reflexivity.
  - reflexivity.
  - reflexivity.
  - reflexivity.
  - reflexivity.
  - by_evaluation.
Defined.

(** The types evaluated: Fe is the third element of the potential, Al
    the first. *)
Example indices_setter_sample :
  indices_setter_types ["Al"; "Fe"] [13%Z; 26%Z] [26%Z; 13%Z] ["Al"; "Ni"; "Fe"]
    [0; 1; 1; 0]%nat
  = Some [3; 1; 1; 3]%nat.
Proof. reflexivity. Qed.

(* ===================================================================== *)
(** * The force callback and uniform shifts                               *)
(* ===================================================================== *)

Lemma sum_axis0_shift (c : vec3) (b : list vec3) :
  sum_axis0 (map (vadd c) b) = vadd (vscale (qz (Z.of_nat (length b))) c) (sum_axis0 b).
Proof.
  induction b as [|v b IH].
  - change (qz (Z.of_nat (length (@nil vec3)))) with (Q2Qc 0).
    cbn [map sum_axis0 fold_right]. linalg.
  - cbn [map sum_axis0 fold_right length]. fold (sum_axis0 (map (vadd c) b)).
    fold (sum_axis0 b). rewrite IH, Nat2Z.inj_succ, <- Z.add_1_r, qz_add.
    change (qz 1) with (Q2Qc 1). linalg.
Qed.

Lemma mean_axis0_shift (c : vec3) (b : list vec3) :
  b <> [] -> mean_axis0 (map (vadd c) b) = vadd c (mean_axis0 b).
Proof.
  intros Hne. unfold mean_axis0. rewrite sum_axis0_shift, length_map.
  assert (Hq : qz (Z.of_nat (length b)) <> 0).
  { apply qz_nonzero. destruct b; [contradiction|cbn; lia]. }
  destruct (sum_axis0 b) as [sx sy sz], c as [cx cy cz]. unfold_linalg.
  f_equal; field; exact Hq.
Qed.

Lemma debias_shift (c m : vec3) (b : list vec3) :
  map (fun v => vsub v (vadd c m)) (map (vadd c) b) = map (fun v => vsub v m) b.
Proof. rewrite map_map. apply map_ext. intros v. linalg. Qed.

(** X15. Adding one and the same force to every row the user function
    returns does not change what [fix_external] leaves in the buffer: only
    the differences between the atoms' forces reach the engine. *)
Theorem fix_external_shift_invariant
  (function shifted : list vec3 -> Z -> nat -> list vec3) (c : vec3)
  (ntimestep : Z) (nlocal : nat) (tag : list Z) (x fext : list vec3) :
  fext <> [] ->
  length x = length tag ->
  length fext = length tag ->
  (forall xs : list vec3,
      length xs = length tag -> length (function xs ntimestep nlocal) = length tag) ->
  (forall xs : list vec3,
      shifted xs ntimestep nlocal = map (vadd c) (function xs ntimestep nlocal)) ->
  fix_external shifted ntimestep nlocal tag x fext
  = fix_external function ntimestep nlocal tag x fext
  /\ is_Some (fix_external function ntimestep nlocal tag x fext).
Proof.
  intros Hne Hx Hfext Hfun Hshift.
  assert (Hfun' : forall xs : list vec3,
             length xs = length tag -> length (shifted xs ntimestep nlocal) = length tag).
  { intros xs Hxs. rewrite Hshift, length_map. apply Hfun. exact Hxs. }
  destruct (fix_external_run function ntimestep nlocal tag x fext Hx Hfext Hfun)
    as [xs [buf [Hxs [Hbl [_ [Hlookup Hrun]]]]]].
  destruct (fix_external_run shifted ntimestep nlocal tag x fext Hx Hfext Hfun')
    as [xs' [buf' [Hxs' [Hbl' [_ [Hlookup' Hrun']]]]]].
  rewrite Hxs in Hxs'. injection Hxs' as <-.
  assert (Hbuf : buf' = map (vadd c) buf).
  { apply list_eq. intros i. change (map (vadd c) buf) with (vadd c <$> buf).
    rewrite list_lookup_fmap.
    destruct (decide (i < length tag)%nat) as [Hlt|Hge].
    - assert (Hin : i ∈ argsort tag).
      { rewrite argsort_perm_seq. apply elem_of_seq. lia. }
      apply list_elem_of_lookup_1 in Hin as [k Hk].
      rewrite (Hlookup' k i Hk), (Hlookup k i Hk), Hshift.
      change (map (vadd c) ?l) with (vadd c <$> l). apply list_lookup_fmap.
    - rewrite !lookup_ge_None_2 by lia. reflexivity. }
  assert (Hbne : buf <> []).
  { intros Hnil. apply Hne. apply length_zero_iff_nil.
    rewrite Hfext, <- Hbl, Hnil. reflexivity. }
  split; [|rewrite Hrun; eexists; reflexivity].
  rewrite Hrun', Hrun, Hbuf, mean_axis0_shift, debias_shift by exact Hbne.
  reflexivity.
Qed.

(** X15 for forces equal to the coordinates, shifted by [(1, 2, 3)]. *)
Lemma fix_external_shift_invariant_witness :
  fix_external (fun xs _ _ => map (vadd (V3 1 (qz 2) (qz 3))) xs) 0 2 [2%Z; 1%Z]
    [V3 1 0 0; V3 0 0 0] [vzero; vzero]
  = fix_external position_force 0 2 [2%Z; 1%Z] [V3 1 0 0; V3 0 0 0] [vzero; vzero]
  /\ is_Some (fix_external position_force 0 2 [2%Z; 1%Z] [V3 1 0 0; V3 0 0 0]
                [vzero; vzero]).
Proof.
  apply (fix_external_shift_invariant position_force _ (V3 1 (qz 2) (qz 3))).
  - discriminate.
  - reflexivity.
  - reflexivity.
  - intros xs Hxs. exact Hxs.
  - intros xs. reflexivity.
Defined.
